(** * CARGOS SDK: fixed-width record codec, validation, key handling, batching

    Shallow embedding of [cargos-sdk.ts].  JavaScript strings are sequences
    of UTF-16 code units, so a string is a list of code units and
    [value.length] is the length of that list.  The numbers the code
    computes with are integers (calendar fields, time values) or [NaN] (the
    getters of an invalid [Date]); a number that is only printed, such as a
    location code, can be any number. *)

From Stdlib Require Import ZArith List Lia Bool String Ascii.
Import ListNotations.
Local Open Scope Z_scope.

(** ** JavaScript strings *)

Definition code_unit := Z.
Definition jsstring := list code_unit.

(** A string literal of the source, as its code units (ASCII literals only). *)
Definition str (s : string) : jsstring :=
  List.map (fun a => Z.of_N (N_of_ascii a)) (list_ascii_of_string s).

(** [s.length] *)
Definition len (s : jsstring) : Z := Z.of_nat (List.length s).

(** [a.length] of an array. *)
Definition len_of {A : Type} (l : list A) : Z := Z.of_nat (List.length l).

(** [!s] on a string: only the empty string is falsy. *)
Definition falsy (s : jsstring) : bool :=
  match s with [] => true | _ => false end.

(** [s || ""] on an optional string field. *)
Definition or_empty (s : option jsstring) : jsstring :=
  match s with Some v => v | None => [] end.

Definition clamp (n bound : Z) : Z := Z.min (Z.max n 0) bound.

(** [s.substring(start, end)]: both indices are clamped to [0, s.length]
    and swapped when out of order. *)
Definition substring (s : jsstring) (start_ end_ : Z) : jsstring :=
  let a := clamp start_ (len s) in
  let b := clamp end_ (len s) in
  let lo := Z.min a b in
  let hi := Z.max a b in
  firstn (Z.to_nat (hi - lo)) (skipn (Z.to_nat lo) s).

(** The filler of [padStart]/[padEnd]: repeated copies of [filler]
    truncated to [fillLen] code units. *)
Definition truncatedStringFiller (filler : jsstring) (fillLen : nat) : jsstring :=
  firstn fillLen (List.concat (List.repeat filler fillLen)).

(** [s.padEnd(maxLength, fillString)] (ECMAScript StringPad, placement end). *)
Definition padEnd (s : jsstring) (maxLength : Z) (fillString : jsstring) : jsstring :=
  if maxLength <=? len s then s
  else if falsy fillString then s
  else s ++ truncatedStringFiller fillString (Z.to_nat (maxLength - len s)).

(** [s.padStart(maxLength, fillString)] (placement start). *)
Definition padStart (s : jsstring) (maxLength : Z) (fillString : jsstring) : jsstring :=
  if maxLength <=? len s then s
  else if falsy fillString then s
  else truncatedStringFiller fillString (Z.to_nat (maxLength - len s)) ++ s.

(** [" ".repeat(n)] *)
Definition spaces (n : nat) : jsstring := List.repeat 32 n.

(** ** Numbers and their decimal text *)

(** The numbers the code computes with: an integer or [NaN].  Every
    integer up to [Number.MAX_SAFE_INTEGER] in magnitude is a number, is
    written [Int], and [String] prints its digits. *)
Inductive number :=
| Int (z : Z)
| NaN.

(** Any number where the code only prints it: one of the above, or another
    number (a fraction, an integer above [Number.MAX_SAFE_INTEGER], an
    infinity), given by the text that [String] prints for it: [0.5],
    [1e+21], [Infinity]. *)
Inductive any_number :=
| Num (value : number)
| Other (text : jsstring).

Coercion Num : number >-> any_number.

Definition digit_char (d : Z) : code_unit := 48 + d.

(** Decimal digits of a non-negative integer, most significant first. *)
Fixpoint digits_fuel (fuel : nat) (n : Z) : jsstring :=
  match fuel with
  | O => []
  | S fuel' =>
      if n <? 10 then [digit_char n]
      else digits_fuel fuel' (n / 10) ++ [digit_char (n mod 10)]
  end.

Definition digits (n : Z) : jsstring :=
  digits_fuel (S (Z.to_nat (Z.log2 n))) n.

(** [String(value)] *)
Definition String_ (value : any_number) : jsstring :=
  match value with
  | Num NaN => str "NaN"
  | Num (Int z) => if z <? 0 then 45 :: digits (- z) else digits z
  | Other text => text
  end.

(** [value + 1] *)
Definition succ_number (value : number) : number :=
  match value with
  | NaN => NaN
  | Int z => Int (z + 1)
  end.

(** ** Field codec *)

(** [padString(value, length, fillChar = " ")]; [None] is an omitted
    third argument. *)
Definition padString (value : jsstring) (length : Z) (fillChar : option jsstring) : jsstring :=
  let fillChar := match fillChar with Some f => f | None => str " " end in
  if length <? len value then substring value 0 length
  else padEnd value length fillChar.

(** [padNumber(value, length)] *)
Definition padNumber (value : any_number) (length : Z) : jsstring :=
  padStart (String_ value) length (str "0").

(** ** Dates

    A [Date] is read only through its local-time getters.  An invalid
    [Date] answers [NaN] to every one of them. *)

Module Date.
Record fields := {
  date : Z;      (* day of the month, 1..31 *)
  month : Z;     (* 0..11 *)
  fullYear : Z;
  hours : Z;     (* 0..23 *)
  minutes : Z    (* 0..59 *)
}.

Inductive t :=
| Valid (f : fields)
| Invalid.

Definition get (proj : fields -> Z) (d : t) : number :=
  match d with
  | Valid f => Int (proj f)
  | Invalid => NaN
  end.

Definition getDate := get date.
Definition getMonth := get month.
Definition getFullYear := get fullYear.
Definition getHours := get hours.
Definition getMinutes := get minutes.
End Date.

(** [formatDate(date, withTime = false)] *)
Definition formatDate (date : Date.t) (withTime : bool) : jsstring :=
  let day := padStart (String_ (Date.getDate date)) 2 (str "0") in
  let month := padStart (String_ (succ_number (Date.getMonth date))) 2 (str "0") in
  let year := Date.getFullYear date in
  if withTime then
    let hours := padStart (String_ (Date.getHours date)) 2 (str "0") in
    let minutes := padStart (String_ (Date.getMinutes date)) 2 (str "0") in
    day ++ str "/" ++ month ++ str "/" ++ String_ year ++ str " "
        ++ hours ++ str ":" ++ minutes
  else
    day ++ str "/" ++ month ++ str "/" ++ String_ year.

(** ** Types and interfaces *)

Module PaymentType.
Inductive t := CASH | CARD | BANK | OTHER.
Definition value (p : t) : jsstring :=
  match p with
  | CASH => str "C"
  | CARD => str "T"
  | BANK => str "B"
  | OTHER => str "A"
  end.
End PaymentType.

(** A string enum is, at run time, an object from the names of its members
    to their strings, and a member access such as [VehicleType.CAR] is the
    string itself.  [VehicleType] declares [CAR] and [OTHER] with the same
    string and [DocumentType] does so for [PASSPORT] and [DRIVERS_LICENSE]:
    a field of the enum's type holds one of the strings, not the name that
    was written.  [member] is the names, [t] the strings, [get] the member
    access and [value] the string as text. *)
Module VehicleType.
Inductive member := CAR | MOTORCYCLE | TRUCK | OTHER.
Inductive t := A | M | C.
Definition get (m : member) : t :=
  match m with
  | CAR => A
  | MOTORCYCLE => M
  | TRUCK => C
  | OTHER => A
  end.
Definition value (v : t) : jsstring :=
  match v with
  | A => str "A"
  | M => str "M"
  | C => str "C"
  end.
End VehicleType.

Module DocumentType.
Inductive member := PASSPORT | ID_CARD | DRIVERS_LICENSE | VISA | RESIDENCE_PERMIT.
Inductive t := P | C | V | S.
Definition get (m : member) : t :=
  match m with
  | PASSPORT => P
  | ID_CARD => C
  | DRIVERS_LICENSE => P
  | VISA => V
  | RESIDENCE_PERMIT => S
  end.
Definition value (d : t) : jsstring :=
  match d with
  | P => str "P"
  | C => str "C"
  | V => str "V"
  | S => str "S"
  end.
End DocumentType.

Module Location.
Record t := {
  code : any_number;
  name : option jsstring
}.
End Location.

Module Driver.
Record t := {
  surname : jsstring;
  name : jsstring;
  birthDate : Date.t;
  birthPlace : Location.t;
  citizenship : Location.t;
  residencePlace : option Location.t;
  residenceAddress : option jsstring;
  documentType : DocumentType.t;
  documentNumber : jsstring;
  documentIssuePlace : Location.t;
  licenseNumber : jsstring;
  licenseIssuePlace : Location.t;
  phone : option jsstring
}.
End Driver.

Module Vehicle.
Record t := {
  type : VehicleType.t;
  brand : jsstring;
  model : jsstring;
  plate : jsstring;
  color : option jsstring;
  hasGPS : option bool;
  hasEngineBlock : option bool
}.
End Vehicle.

Module Agency.
Record t := {
  id : jsstring;
  name : jsstring;
  location : Location.t;
  address : jsstring;
  phone : jsstring
}.
End Agency.

Module RentalContract.
Record t := {
  id : jsstring;
  createdDate : Date.t;
  paymentType : PaymentType.t;
  checkoutDate : Date.t;
  checkoutLocation : Location.t;
  checkoutAddress : jsstring;
  checkinDate : Date.t;
  checkinLocation : Location.t;
  checkinAddress : jsstring;
  operatorId : jsstring;
  agency : Agency.t;
  vehicle : Vehicle.t;
  mainDriver : Driver.t;
  secondaryDriver : option Driver.t
}.
End RentalContract.

(** [flag ? "1" : "0"] on an optional boolean. *)
Definition flag_char (flag : option bool) : jsstring :=
  match flag with
  | Some true => str "1"
  | _ => str "0"
  end.

(** ** Contract formatter *)

(** [formatDriver(driver)]; each line is one [record += ...] of the source. *)
Definition formatDriver (driver : Driver.t) : jsstring :=
  let record := [] in
  let record := record ++ padString (Driver.surname driver) 50 None in
  let record := record ++ padString (Driver.name driver) 30 None in
  let record := record ++ padEnd (formatDate (Driver.birthDate driver) false) 10 (str " ") in
  let record := record ++ padNumber (Location.code (Driver.birthPlace driver)) 9 in
  let record := record ++ padNumber (Location.code (Driver.citizenship driver)) 9 in
  let record := record ++
    match Driver.residencePlace driver with
    | Some place => padNumber (Location.code place) 9
    | None => str "         "
    end in
  let record := record ++ padString (or_empty (Driver.residenceAddress driver)) 150 None in
  let record := record ++ padString (DocumentType.value (Driver.documentType driver)) 5 None in
  let record := record ++ padString (Driver.documentNumber driver) 20 None in
  let record := record ++ padNumber (Location.code (Driver.documentIssuePlace driver)) 9 in
  let record := record ++ padString (Driver.licenseNumber driver) 20 None in
  let record := record ++ padNumber (Location.code (Driver.licenseIssuePlace driver)) 9 in
  let record := record ++ padString (or_empty (Driver.phone driver)) 20 None in
  record.

(** [formatContract(contract)] *)
Definition formatContract (contract : RentalContract.t) : jsstring :=
  let agency := RentalContract.agency contract in
  let vehicle := RentalContract.vehicle contract in
  let record := [] in
  let record := record ++ padString (RentalContract.id contract) 50 None in
  let record := record ++ padEnd (formatDate (RentalContract.createdDate contract) true) 16 (str " ") in
  let record := record ++ PaymentType.value (RentalContract.paymentType contract) in
  let record := record ++ padEnd (formatDate (RentalContract.checkoutDate contract) true) 16 (str " ") in
  let record := record ++ padNumber (Location.code (RentalContract.checkoutLocation contract)) 9 in
  let record := record ++ padString (RentalContract.checkoutAddress contract) 150 None in
  let record := record ++ padEnd (formatDate (RentalContract.checkinDate contract) true) 16 (str " ") in
  let record := record ++ padNumber (Location.code (RentalContract.checkinLocation contract)) 9 in
  let record := record ++ padString (RentalContract.checkinAddress contract) 150 None in
  let record := record ++ padString (RentalContract.operatorId contract) 50 None in
  let record := record ++ padString (Agency.id agency) 30 None in
  let record := record ++ padString (Agency.name agency) 70 None in
  let record := record ++ padNumber (Location.code (Agency.location agency)) 9 in
  let record := record ++ padString (Agency.address agency) 150 None in
  let record := record ++ padString (Agency.phone agency) 20 None in
  let record := record ++ VehicleType.value (Vehicle.type vehicle) in
  let record := record ++ padString (Vehicle.brand vehicle) 50 None in
  let record := record ++ padString (Vehicle.model vehicle) 100 None in
  let record := record ++ padString (Vehicle.plate vehicle) 15 None in
  let record := record ++ padString (or_empty (Vehicle.color vehicle)) 50 None in
  let record := record ++ flag_char (Vehicle.hasGPS vehicle) in
  let record := record ++ flag_char (Vehicle.hasEngineBlock vehicle) in
  let record := record ++ formatDriver (RentalContract.mainDriver contract) in
  let record := record ++
    match RentalContract.secondaryDriver contract with
    | Some driver => formatDriver driver
    | None => spaces 190
    end in
  record.

(** ** Validation *)

(** [isValidContractData(contract)]: [errors.push] appends at the end. *)
Definition isValidContractData (contract : RentalContract.t) : list jsstring :=
  let errors := [] in
  let errors :=
    if falsy (RentalContract.id contract) || (50 <? len (RentalContract.id contract))
    then errors ++ [str "Contract ID must be between 1 and 50 characters"]
    else errors in
  let errors :=
    if falsy (Agency.id (RentalContract.agency contract))
       || (30 <? len (Agency.id (RentalContract.agency contract)))
    then errors ++ [str "Agency ID must be between 1 and 30 characters"]
    else errors in
  let errors :=
    if len (RentalContract.checkoutAddress contract) <? 3
    then errors ++ [str "Checkout address must be at least 3 characters"]
    else errors in
  let errors :=
    if len (RentalContract.checkinAddress contract) <? 3
    then errors ++ [str "Checkin address must be at least 3 characters"]
    else errors in
  let errors :=
    if len (Driver.documentNumber (RentalContract.mainDriver contract)) <? 5
    then errors ++ [str "Document number must be at least 5 characters"]
    else errors in
  let errors :=
    if len (Driver.licenseNumber (RentalContract.mainDriver contract)) <? 5
    then errors ++ [str "License number must be at least 5 characters"]
    else errors in
  let errors :=
    if len (Vehicle.plate (RentalContract.vehicle contract)) <? 3
    then errors ++ [str "Vehicle plate must be at least 3 characters"]
    else errors in
  let errors :=
    if match RentalContract.secondaryDriver contract with
       | Some secondary =>
           falsy (Driver.surname secondary)
           || falsy (Driver.name secondary)
           || falsy (Driver.documentNumber secondary)
       | None => false
       end
    then errors ++ [str "Secondary driver must have all required fields or be removed"]
    else errors in
  errors.

(** The validation gate as its specification words it, to be compared
    with [isValidContractData]: a rule table, one row per rule, with the
    condition a contract has to meet (id of 1 to 50 characters, agency id
    of 1 to 30, addresses of at least 3, document and license number of at
    least 5, plate of at least 3, a secondary driver with surname, name
    and document number all non-empty) and the violation reported when it
    does not. *)
Definition rule_table : list ((RentalContract.t -> bool) * jsstring) :=
  [ (fun c => (1 <=? len (RentalContract.id c)) && (len (RentalContract.id c) <=? 50),
     str "Contract ID must be between 1 and 50 characters");
    (fun c => (1 <=? len (Agency.id (RentalContract.agency c)))
              && (len (Agency.id (RentalContract.agency c)) <=? 30),
     str "Agency ID must be between 1 and 30 characters");
    (fun c => 3 <=? len (RentalContract.checkoutAddress c),
     str "Checkout address must be at least 3 characters");
    (fun c => 3 <=? len (RentalContract.checkinAddress c),
     str "Checkin address must be at least 3 characters");
    (fun c => 5 <=? len (Driver.documentNumber (RentalContract.mainDriver c)),
     str "Document number must be at least 5 characters");
    (fun c => 5 <=? len (Driver.licenseNumber (RentalContract.mainDriver c)),
     str "License number must be at least 5 characters");
    (fun c => 3 <=? len (Vehicle.plate (RentalContract.vehicle c)),
     str "Vehicle plate must be at least 3 characters");
    (fun c => match RentalContract.secondaryDriver c with
              | Some d => (1 <=? len (Driver.surname d))
                          && (1 <=? len (Driver.name d))
                          && (1 <=? len (Driver.documentNumber d))
              | None => true
              end,
     str "Secondary driver must have all required fields or be removed") ].

(** The violations the rule table prescribes: one per violated rule, in
    table order. *)
Definition violations (c : RentalContract.t) : list jsstring :=
  List.map snd (List.filter (fun rule => negb (fst rule c)) rule_table).

(** ** Encryption *)

(** How a call ends: with a value or with a thrown [Error]. *)
Inductive completion (A : Type) :=
| Normal (value : A)
| Throw (message : jsstring).
Arguments Normal {A} value.
Arguments Throw {A} message.

Definition byte := Z.

Definition is_high_surrogate (c : code_unit) : bool := (55296 <=? c) && (c <=? 56319).
Definition is_low_surrogate (c : code_unit) : bool := (56320 <=? c) && (c <=? 57343).

(** The three bytes of U+FFFD, written for a lone surrogate. *)
Definition replacement_bytes : list byte := [239; 191; 189].

Definition utf8_3 (c : Z) : list byte :=
  [Z.lor 224 (Z.shiftr c 12);
   Z.lor 128 (Z.land (Z.shiftr c 6) 63);
   Z.lor 128 (Z.land c 63)].

Definition utf8_4 (c : Z) : list byte :=
  [Z.lor 240 (Z.shiftr c 18);
   Z.lor 128 (Z.land (Z.shiftr c 12) 63);
   Z.lor 128 (Z.land (Z.shiftr c 6) 63);
   Z.lor 128 (Z.land c 63)].

(** [Buffer.from(s, "utf-8")]: the UTF-8 bytes of a UTF-16 string. *)
Fixpoint utf8 (s : jsstring) : list byte :=
  match s with
  | [] => []
  | c :: rest =>
      if c <? 128 then c :: utf8 rest
      else if c <? 2048 then
        [Z.lor 192 (Z.shiftr c 6); Z.lor 128 (Z.land c 63)] ++ utf8 rest
      else if is_high_surrogate c then
        match rest with
        | d :: rest' =>
            if is_low_surrogate d
            then utf8_4 (65536 + Z.shiftl (c - 55296) 10 + (d - 56320)) ++ utf8 rest'
            else replacement_bytes ++ utf8 rest
        | [] => replacement_bytes
        end
      else if is_low_surrogate c then replacement_bytes ++ utf8 rest
      else utf8_3 c ++ utf8 rest
  end.

(** The base64 alphabet, by six-bit index. *)
Definition base64_char (i : Z) : code_unit :=
  let i := Z.land i 63 in
  if i <? 26 then 65 + i
  else if i <? 52 then 97 + (i - 26)
  else if i <? 62 then 48 + (i - 52)
  else if i =? 62 then 43
  else 47.

(** [buffer.toString("base64")] *)
Fixpoint base64 (bytes : list byte) : jsstring :=
  match bytes with
  | [] => []
  | [a] =>
      [base64_char (Z.shiftr a 2);
       base64_char (Z.shiftl (Z.land a 3) 4);
       61; 61]
  | [a; b] =>
      [base64_char (Z.shiftr a 2);
       base64_char (Z.lor (Z.shiftl (Z.land a 3) 4) (Z.shiftr b 4));
       base64_char (Z.shiftl (Z.land b 15) 2);
       61]
  | a :: b :: c :: rest =>
      [base64_char (Z.shiftr a 2);
       base64_char (Z.lor (Z.shiftl (Z.land a 3) 4) (Z.shiftr b 4));
       base64_char (Z.lor (Z.shiftl (Z.land b 15) 2) (Z.shiftr c 6));
       base64_char c] ++ base64 rest
  end.

(** [node:crypto] is not part of the repository.  The block cipher itself
    is a parameter [aes] of everything below: [aes key iv plaintext] is the
    whole AES-256-CBC ciphertext with PKCS7 padding.  What is modelled of
    the library is its calling contract: [createCipheriv] rejects an
    initialization vector that is not 16 bytes and then a key that is not
    32 bytes (the error texts are those Node prints);
    [update] releases the ciphertext of the blocks that are complete and
    [final] the rest; with an output encoding both go through a string
    decoder that holds back bytes until a group of three is complete. *)
Definition aes_256_cbc := list byte -> list byte -> list byte -> list byte.

Module Cipher.
Record t := {
  key : list byte;
  iv : list byte;
  fed : list byte;      (* plaintext received so far *)
  held : list byte      (* ciphertext bytes kept by the base64 decoder *)
}.
End Cipher.

Definition createCipheriv (key iv : list byte) : completion Cipher.t :=
  if negb (len iv =? 16) then Throw (str "TypeError: Invalid initialization vector")
  else if negb (len key =? 32) then Throw (str "RangeError: Invalid key length")
  else Normal {| Cipher.key := key; Cipher.iv := iv; Cipher.fed := []; Cipher.held := [] |}.

(** Ciphertext bytes released once [n] plaintext bytes were received. *)
Definition released (n : nat) : nat := (16 * (n / 16))%nat.

(** [cipher.update(data, "utf-8", "base64")]: the new cipher state and the
    returned text. *)
Definition cipher_update (aes : aes_256_cbc) (c : Cipher.t) (data : jsstring)
  : Cipher.t * jsstring :=
  let fed := Cipher.fed c ++ utf8 data in
  let ciphertext := aes (Cipher.key c) (Cipher.iv c) fed in
  let out := skipn (released (List.length (Cipher.fed c)))
                   (firstn (released (List.length fed)) ciphertext) in
  let buffered := Cipher.held c ++ out in
  let whole := (3 * (List.length buffered / 3))%nat in
  ({| Cipher.key := Cipher.key c; Cipher.iv := Cipher.iv c;
      Cipher.fed := fed; Cipher.held := skipn whole buffered |},
   base64 (firstn whole buffered)).

(** [cipher.final("base64")] *)
Definition cipher_final (aes : aes_256_cbc) (c : Cipher.t) : jsstring :=
  let ciphertext := aes (Cipher.key c) (Cipher.iv c) (Cipher.fed c) in
  let out := skipn (released (List.length (Cipher.fed c))) ciphertext in
  base64 (Cipher.held c ++ out).

(** [encryptAES(token, apiKey)].  The [try] block rethrows whatever the
    library throws, prefixed. *)
Definition encryptAES (aes : aes_256_cbc) (token apiKey : jsstring) : completion jsstring :=
  if falsy apiKey || (len apiKey <? 48) then
    Throw (str "API Key must be at least 48 characters for AES encryption")
  else
    let key := utf8 (substring apiKey 0 32) in
    let iv := utf8 (substring apiKey 32 48) in
    match createCipheriv key iv with
    | Throw error => Throw (str "AES encryption failed: " ++ error)
    | Normal cipher =>
        let '(cipher, encrypted) := cipher_update aes cipher token in
        let encrypted := encrypted ++ cipher_final aes cipher in
        Normal encrypted
    end.

(** The test's pattern [/^[A-Za-z0-9+/=]+$/]. *)
Definition base64_class (c : code_unit) : bool :=
  ((65 <=? c) && (c <=? 90)) || ((97 <=? c) && (c <=? 122))
  || ((48 <=? c) && (c <=? 57)) || (c =? 43) || (c =? 47) || (c =? 61).

Definition matches_base64 (s : jsstring) : bool :=
  negb (falsy s) && forallb base64_class s.

(** ** Batch sending *)

(** [array.slice(start, end)]: negative indices count from the end, both
    are clamped to the array. *)
Definition slice {A : Type} (l : list A) (start_ end_ : Z) : list A :=
  let n := len_of l in
  let k := if start_ <? 0 then Z.max (n + start_) 0 else Z.min start_ n in
  let final := if end_ <? 0 then Z.max (n + end_) 0 else Z.min end_ n in
  firstn (Z.to_nat (final - k)) (skipn (Z.to_nat k) l).

Definition chunkSize : Z := 100.

(** The [for] loop of [batchSendContracts]: [send] is [this.sendContracts],
    [i] the loop index, [results] the array built so far.  A throwing
    [send] ends the loop.  The delay between two requests has no effect on
    the values and is left out. *)
Fixpoint batchSendContracts_loop {A R : Type} (send : list A -> completion R)
    (fuel : nat) (contracts : list A) (i : Z) (results : list R)
  : completion (list R) :=
  match fuel with
  | O => Normal results
  | S fuel' =>
      if i <? len_of contracts then
        let chunk := slice contracts i (i + chunkSize) in
        match send chunk with
        | Throw error => Throw error
        | Normal result =>
            batchSendContracts_loop send fuel' contracts (i + chunkSize) (results ++ [result])
        end
      else Normal results
  end.

(** [batchSendContracts(contracts)].  Every round moves [i] forward, so
    one round per element and one more for the exit test are enough. *)
Definition batchSendContracts {A R : Type} (send : list A -> completion R)
    (contracts : list A) : completion (list R) :=
  batchSendContracts_loop send (S (List.length contracts)) contracts 0 [].

(** The slices handed to [sendContracts], in dispatch order: what the loop
    collects when every request answers with its own argument. *)
Definition chunks {A : Type} (contracts : list A) : list (list A) :=
  match batchSendContracts (fun chunk => Normal chunk) contracts with
  | Normal slices => slices
  | Throw _ => []
  end.

(** [sendContracts] up to the request: the size guard, then the records
    handed to the transport. *)
Definition sendContracts {R : Type} (transport : list jsstring -> completion R)
    (contracts : list RentalContract.t) : completion R :=
  if 100 <? len_of contracts then Throw (str "Maximum 100 contracts per request")
  else transport (List.map formatContract contracts).

(** Runs [send] over the slices in order, stopping at the first throw. *)
Fixpoint send_all {A R : Type} (send : list A -> completion R) (slices : list (list A))
  : completion (list R) :=
  match slices with
  | [] => Normal []
  | s :: rest =>
      match send s with
      | Throw error => Throw error
      | Normal r =>
          match send_all send rest with
          | Throw error => Throw error
          | Normal rs => Normal (r :: rs)
          end
      end
  end.

(** ** Token cache *)

Module TokenResponse.
Record t := {
  token_type : jsstring;
  expires_date : jsstring;
  access_token : jsstring
}.
End TokenResponse.

Module Client.
Record t := {
  token : option jsstring;
  tokenExpiry : option number     (* a [Date] as its time value *)
}.
End Client.

(** [this.token && this.tokenExpiry && new Date() < this.tokenExpiry] *)
Definition cached (c : Client.t) (now : Z) : option jsstring :=
  match Client.token c, Client.tokenExpiry c with
  | Some tok, Some (Int expiry) =>
      if negb (falsy tok) && (now <? expiry) then Some tok else None
  | _, _ => None
  end.

(** [getToken] is an async function: a call runs until its first [await]
    and is resumed when the awaited promise settles.  A call is suspended
    either on the [fetch] of the credential exchange or on
    [response.json()]. *)
Inductive suspension := AwaitFetch | AwaitJson.

Inductive event :=
| Call (caller : nat) (now : Z)                          (* [getToken()] is invoked *)
| Response (caller : nat) (ok : bool) (statusText : jsstring)  (* the fetch resolves *)
| Body (caller : nat) (data : TokenResponse.t)           (* [response.json()] resolves *)
| Rejected (caller : nat) (error : jsstring).            (* the awaited promise rejects *)

Record World := {
  client : Client.t;
  pending : list (nat * suspension);
  settled : list (nat * completion jsstring)
}.

Definition lookup (caller : nat) (l : list (nat * suspension)) : option suspension :=
  match List.find (fun p => Nat.eqb (fst p) caller) l with
  | Some p => Some (snd p)
  | None => None
  end.

Definition remove (caller : nat) (l : list (nat * suspension)) : list (nat * suspension) :=
  List.filter (fun p => negb (Nat.eqb (fst p) caller)) l.

(** The time zone of the host, as a [Date] sees it: the offset of local
    time from UTC, in milliseconds, that is in force at a time value
    ([LocalTZA(t, true)]), and the offset by which a local time is read
    back as a time value ([LocalTZA(t, false)]).  The two differ around a
    change of the clock. *)
Module TimeZone.
Record t := {
  offset_at : Z -> Z;
  offset_of_local : Z -> Z
}.
End TimeZone.

Definition msPerSecond : Z := 1000.
Definition msPerMinute : Z := 60000.
Definition msPerHour : Z := 3600000.
Definition msPerDay : Z := 86400000.

Definition Day (t : Z) : Z := t / msPerDay.
Definition HourFromTime (t : Z) : Z := (t / msPerHour) mod 24.
Definition MinFromTime (t : Z) : Z := (t / msPerMinute) mod 60.
Definition SecFromTime (t : Z) : Z := (t / msPerSecond) mod 60.
Definition msFromTime (t : Z) : Z := t mod msPerSecond.

Definition MakeTime (hour min sec ms : Z) : Z :=
  hour * msPerHour + min * msPerMinute + sec * msPerSecond + ms.

Definition MakeDate (day time : Z) : Z := day * msPerDay + time.

(** A time value beyond 8.64e15 ms on either side makes the [Date] invalid. *)
Definition TimeClip (time : Z) : number :=
  if Z.abs time <=? 8640000000000000 then Int time else NaN.

Definition five_minutes : Z := 5 * 60 * 1000.

(** [expiry.setMinutes(expiry.getMinutes() - 5)] on the time value of
    [expiry]: the minutes of the local time are read, the local time is
    made again with five minutes less and read back as a time value. *)
Definition minus_five_minutes (zone : TimeZone.t) (t : number) : number :=
  match t with
  | Int ms =>
      let local := ms + TimeZone.offset_at zone ms in
      let min := MinFromTime local - 5 in
      let moved :=
        MakeDate (Day local)
                 (MakeTime (HourFromTime local) min (SecFromTime local) (msFromTime local)) in
      TimeClip (moved - TimeZone.offset_of_local zone moved)
  | NaN => NaN
  end.

(** [getToken()] from the call to its first [await]: the cached token is
    returned, or the request is sent and the call waits for it. *)
Definition getToken (w : World) (caller : nat) (now : Z) : World :=
  match cached (client w) now with
  | Some tok =>
      {| client := client w; pending := pending w;
         settled := settled w ++ [(caller, Normal tok)] |}
  | None =>
      {| client := client w; pending := pending w ++ [(caller, AwaitFetch)];
         settled := settled w |}
  end.

(** [getToken] resumed with the response of the fetch: [!response.ok]
    throws, and the [catch] rethrows. *)
Definition getToken_response (w : World) (caller : nat) (ok : bool) (statusText : jsstring)
  : World :=
  match lookup caller (pending w) with
  | Some AwaitFetch =>
      if ok then
        {| client := client w;
           pending := remove caller (pending w) ++ [(caller, AwaitJson)];
           settled := settled w |}
      else
        {| client := client w; pending := remove caller (pending w);
           settled := settled w ++
             [(caller, Throw (str "Failed to obtain token: Error: Token request failed: "
                              ++ statusText))] |}
  | _ => w
  end.

(** [getToken] resumed with the parsed body: the token and, when the
    answer carries an expiry, the expiry are stored.  [parse] is
    [new Date(string)] and [zone] the time zone of the host. *)
Definition getToken_body (zone : TimeZone.t) (parse : jsstring -> number) (w : World)
    (caller : nat) (data : TokenResponse.t) : World :=
  match lookup caller (pending w) with
  | Some AwaitJson =>
      let expiry :=
        if falsy (TokenResponse.expires_date data) then Client.tokenExpiry (client w)
        else Some (minus_five_minutes zone (parse (TokenResponse.expires_date data))) in
      {| client := {| Client.token := Some (TokenResponse.access_token data);
                      Client.tokenExpiry := expiry |};
         pending := remove caller (pending w);
         settled := settled w ++ [(caller, Normal (TokenResponse.access_token data))] |}
  | _ => w
  end.

(** [getToken] resumed with a rejection of the promise it waits for. *)
Definition getToken_rejected (w : World) (caller : nat) (error : jsstring) : World :=
  match lookup caller (pending w) with
  | Some _ =>
      {| client := client w; pending := remove caller (pending w);
         settled := settled w ++
           [(caller, Throw (str "Failed to obtain token: " ++ error))] |}
  | None => w
  end.

(** One turn of the event loop. *)
Definition step (zone : TimeZone.t) (parse : jsstring -> number) (w : World) (e : event)
  : World :=
  match e with
  | Call caller now => getToken w caller now
  | Response caller ok statusText => getToken_response w caller ok statusText
  | Body caller data => getToken_body zone parse w caller data
  | Rejected caller error => getToken_rejected w caller error
  end.

Definition run (zone : TimeZone.t) (parse : jsstring -> number) (w : World)
    (trace : list event) : World :=
  List.fold_left (step zone parse) trace w.

(** Credential exchanges that were sent and have not been answered. *)
Definition outstanding (w : World) : nat :=
  List.length (List.filter (fun p => match snd p with AwaitFetch => true | _ => false end)
                           (pending w)).

(** A client right after construction. *)
Definition fresh : World :=
  {| client := {| Client.token := None; Client.tokenExpiry := None |};
     pending := []; settled := [] |}.

(** ** Record updates and the fixtures of the test suite *)

Definition with_code (code : any_number) (l : Location.t) : Location.t :=
  {| Location.code := code; Location.name := Location.name l |}.

Definition with_residencePlace (place : option Location.t) (d : Driver.t) : Driver.t :=
  {| Driver.surname := Driver.surname d;
     Driver.name := Driver.name d;
     Driver.birthDate := Driver.birthDate d;
     Driver.birthPlace := Driver.birthPlace d;
     Driver.citizenship := Driver.citizenship d;
     Driver.residencePlace := place;
     Driver.residenceAddress := Driver.residenceAddress d;
     Driver.documentType := Driver.documentType d;
     Driver.documentNumber := Driver.documentNumber d;
     Driver.documentIssuePlace := Driver.documentIssuePlace d;
     Driver.licenseNumber := Driver.licenseNumber d;
     Driver.licenseIssuePlace := Driver.licenseIssuePlace d;
     Driver.phone := Driver.phone d |}.

Definition with_documentType (t : DocumentType.t) (d : Driver.t) : Driver.t :=
  {| Driver.surname := Driver.surname d;
     Driver.name := Driver.name d;
     Driver.birthDate := Driver.birthDate d;
     Driver.birthPlace := Driver.birthPlace d;
     Driver.citizenship := Driver.citizenship d;
     Driver.residencePlace := Driver.residencePlace d;
     Driver.residenceAddress := Driver.residenceAddress d;
     Driver.documentType := t;
     Driver.documentNumber := Driver.documentNumber d;
     Driver.documentIssuePlace := Driver.documentIssuePlace d;
     Driver.licenseNumber := Driver.licenseNumber d;
     Driver.licenseIssuePlace := Driver.licenseIssuePlace d;
     Driver.phone := Driver.phone d |}.

Definition with_vehicle_type (t : VehicleType.t) (v : Vehicle.t) : Vehicle.t :=
  {| Vehicle.type := t;
     Vehicle.brand := Vehicle.brand v;
     Vehicle.model := Vehicle.model v;
     Vehicle.plate := Vehicle.plate v;
     Vehicle.color := Vehicle.color v;
     Vehicle.hasGPS := Vehicle.hasGPS v;
     Vehicle.hasEngineBlock := Vehicle.hasEngineBlock v |}.

(** [{ ...contract, id, checkoutLocation, vehicle, mainDriver, secondaryDriver }] *)
Definition override (id : jsstring) (checkoutLocation : Location.t) (vehicle : Vehicle.t)
    (mainDriver : Driver.t) (secondaryDriver : option Driver.t)
    (c : RentalContract.t) : RentalContract.t :=
  {| RentalContract.id := id;
     RentalContract.createdDate := RentalContract.createdDate c;
     RentalContract.paymentType := RentalContract.paymentType c;
     RentalContract.checkoutDate := RentalContract.checkoutDate c;
     RentalContract.checkoutLocation := checkoutLocation;
     RentalContract.checkoutAddress := RentalContract.checkoutAddress c;
     RentalContract.checkinDate := RentalContract.checkinDate c;
     RentalContract.checkinLocation := RentalContract.checkinLocation c;
     RentalContract.checkinAddress := RentalContract.checkinAddress c;
     RentalContract.operatorId := RentalContract.operatorId c;
     RentalContract.agency := RentalContract.agency c;
     RentalContract.vehicle := vehicle;
     RentalContract.mainDriver := mainDriver;
     RentalContract.secondaryDriver := secondaryDriver |}.

Definition with_id (id : jsstring) (c : RentalContract.t) : RentalContract.t :=
  override id (RentalContract.checkoutLocation c) (RentalContract.vehicle c)
           (RentalContract.mainDriver c) (RentalContract.secondaryDriver c) c.


Definition with_vehicle (v : Vehicle.t) (c : RentalContract.t) : RentalContract.t :=
  override (RentalContract.id c) (RentalContract.checkoutLocation c) v
           (RentalContract.mainDriver c) (RentalContract.secondaryDriver c) c.

Definition with_mainDriver (d : Driver.t) (c : RentalContract.t) : RentalContract.t :=
  override (RentalContract.id c) (RentalContract.checkoutLocation c) (RentalContract.vehicle c)
           d (RentalContract.secondaryDriver c) c.

Definition with_secondaryDriver (d : option Driver.t) (c : RentalContract.t) : RentalContract.t :=
  override (RentalContract.id c) (RentalContract.checkoutLocation c) (RentalContract.vehicle c)
           (RentalContract.mainDriver c) d c.

Definition place (code : Z) (name : string) : Location.t :=
  {| Location.code := Int code; Location.name := Some (str name) |}.

(** A valid [Date] given by what its getters answer: the full year, the
    month counted from 0, the day of the month, the hours and the minutes.
    The test suite makes its dates with [new Date(2024, 0, 15, 10, 30)]
    and the like, whose arguments are in range and are what the getters
    answer. *)
Definition date_showing (year monthIndex day hours minutes : Z) : Date.t :=
  Date.Valid {| Date.date := day; Date.month := monthIndex; Date.fullYear := year;
                Date.hours := hours; Date.minutes := minutes |}.

(** [createTestDriver()] of the test suite. *)
Definition createTestDriver : Driver.t :=
  {| Driver.surname := str "Rossi";
     Driver.name := str "Mario";
     Driver.birthDate := date_showing 1985 5 15 0 0;
     Driver.birthPlace := place 123456789 "Roma";
     Driver.citizenship := place 100000100 "Italia";
     Driver.residencePlace := None;
     Driver.residenceAddress := None;
     Driver.documentType := DocumentType.get DocumentType.ID_CARD;
     Driver.documentNumber := str "AB1234567";
     Driver.documentIssuePlace := place 123456789 "Roma";
     Driver.licenseNumber := str "RM12345678";
     Driver.licenseIssuePlace := place 123456789 "Roma";
     Driver.phone := None |}.

(** [createTestContract()] of the test suite. *)
Definition createTestContract : RentalContract.t :=
  {| RentalContract.id := str "CONTRACT-001";
     RentalContract.createdDate := date_showing 2024 0 15 10 30;
     RentalContract.paymentType := PaymentType.CARD;
     RentalContract.checkoutDate := date_showing 2024 0 15 11 0;
     RentalContract.checkoutLocation := place 123456789 "Roma Fiumicino";
     RentalContract.checkoutAddress := str "Via dell'Aeroporto 1";
     RentalContract.checkinDate := date_showing 2024 0 20 18 0;
     RentalContract.checkinLocation := place 987654321 "Milano Malpensa";
     RentalContract.checkinAddress := str "Via Malpensa 2";
     RentalContract.operatorId := str "OP001";
     RentalContract.agency :=
       {| Agency.id := str "AGENCY001";
          Agency.name := str "Autonoleggio Roma SRL";
          Agency.location := place 123456789 "Roma";
          Agency.address := str "Via Roma 100";
          Agency.phone := str "+39 06 1234567" |};
     RentalContract.vehicle :=
       {| Vehicle.type := VehicleType.get VehicleType.CAR;
          Vehicle.brand := str "Fiat";
          Vehicle.model := str "500";
          Vehicle.plate := str "AB123CD";
          Vehicle.color := Some (str "Rosso");
          Vehicle.hasGPS := Some true;
          Vehicle.hasEngineBlock := Some false |};
     RentalContract.mainDriver := createTestDriver;
     RentalContract.secondaryDriver := None |}.

(** ** Widths of the record layout *)

(** Does the text of a numeric code fit its 9 columns? *)
Definition code_fits (l : Location.t) : bool := len (String_ (Location.code l)) <=? 9.

Definition optional_code_fits (l : option Location.t) : bool :=
  match l with Some p => code_fits p | None => true end.

(** A driver none of whose variable-width parts (the five numeric codes and
    the birth date) is wider than its columns. *)
Definition driver_fits (d : Driver.t) : bool :=
  (len (formatDate (Driver.birthDate d) false) <=? 10)
  && code_fits (Driver.birthPlace d)
  && code_fits (Driver.citizenship d)
  && optional_code_fits (Driver.residencePlace d)
  && code_fits (Driver.documentIssuePlace d)
  && code_fits (Driver.licenseIssuePlace d).



(** Width of a driver block and of the two record layouts when every field
    keeps to its columns. *)
Definition driver_width : Z := 50 + 30 + 10 + 9 + 9 + 9 + 150 + 5 + 20 + 9 + 20 + 9 + 20.
Definition contract_fields_width : Z :=
  50 + 16 + 1 + 16 + 9 + 150 + 16 + 9 + 150 + 50 + 30 + 70 + 9 + 150 + 20
  + 1 + 50 + 100 + 15 + 50 + 1 + 1.

Definition nominal_width (c : RentalContract.t) : Z :=
  contract_fields_width + driver_width
  + match RentalContract.secondaryDriver c with
    | Some _ => driver_width
    | None => 190
    end.

(** Value of a string of decimal digits. *)
Definition decimal_value (s : jsstring) : Z :=
  List.fold_left (fun acc c => 10 * acc + (c - 48)) s 0.

(** A code unit that UTF-8 writes as one byte. *)
Definition ascii_unit (c : code_unit) : bool := (0 <=? c) && (c <? 128).

(** A stand-in for the block cipher where a concrete one is needed: it
    appends one block of padding bytes. *)
Definition toy_cipher : aes_256_cbc :=
  fun _ _ plaintext => plaintext ++ List.repeat 16 16.

(** "José": four characters, five bytes in UTF-8. *)
Definition jose : jsstring := [74; 111; 115; 233].

(** Columns taken by a numeric code and by a timestamp: the field width,
    or the width of the text when that is larger. *)
Definition code_columns (l : Location.t) : Z := Z.max 9 (len (String_ (Location.code l))).
Definition timestamp_columns (d : Date.t) : Z := Z.max 16 (len (formatDate d true)).

Definition driver_code_columns (d : Driver.t) : Z :=
  code_columns (Driver.birthPlace d)
  + code_columns (Driver.citizenship d)
  + match Driver.residencePlace d with Some p => code_columns p | None => 9 end
  + code_columns (Driver.documentIssuePlace d)
  + code_columns (Driver.licenseIssuePlace d).

(** The test driver with a residence place whose code has ten digits. *)
Definition driver_wide_residence : Driver.t :=
  with_residencePlace (Some (place 1234567890 "Roma")) createTestDriver.


(** The 48-character key of the test suite. *)
Definition validApiKey : jsstring :=
  str "12345678901234567890123456789012" ++ str "1234567890123456".

(** A key of 48 characters whose first is "é" (two bytes in UTF-8). *)
Definition accented_key : jsstring := 233 :: List.repeat 97 47.

(** The slices the loop cuts from index [i] on, without the requests. *)
Fixpoint slices_from {A : Type} (fuel : nat) (contracts : list A) (i : Z) : list (list A) :=
  match fuel with
  | O => []
  | S fuel' =>
      if i <? len_of contracts
      then slice contracts i (i + chunkSize) :: slices_from fuel' contracts (i + chunkSize)
      else []
  end.

(** Calls of [getToken] made one after the other, each given as the caller
    and the clock reading at the call. *)
Definition calls (who : list (nat * Z)) : list event :=
  List.map (fun p => Call (fst p) (snd p)) who.

(** A [Date] parser for the examples: every text is the same instant. *)
Definition parse_fixed (t : number) : jsstring -> number := fun _ => t.

(** A host on UTC. *)
Definition utc : TimeZone.t :=
  {| TimeZone.offset_at := fun _ => 0; TimeZone.offset_of_local := fun _ => 0 |}.

(** A host in Europe/Rome during 2024: one hour ahead of UTC, two from
    31 March 01:00 UTC to 27 October 01:00 UTC.  A local time that the
    clock skips or shows twice is read with the offset from before the
    change. *)
Definition europe_rome_2024 : TimeZone.t :=
  {| TimeZone.offset_at := fun t =>
       if t <? 1711846800000 then 3600000
       else if t <? 1729990800000 then 7200000
       else 3600000;
     TimeZone.offset_of_local := fun local =>
       if local <? 1711854000000 then 3600000
       else if local <? 1729998000000 then 7200000
       else 3600000 |}.

(** A token answer for the examples. *)
Definition sample_answer : TokenResponse.t :=
  {| TokenResponse.token_type := str "bearer";
     TokenResponse.expires_date := str "2024-02-01T11:00:00";
     TokenResponse.access_token := str "abc" |}.

(** ** Reading a record back *)

Definition is_digit (c : code_unit) : bool := (48 <=? c) && (c <=? 57).

(** [Number.MAX_SAFE_INTEGER]: up to here every integer is a number and
    [String] prints all its digits. *)
Definition MAX_SAFE_INTEGER : Z := 9007199254740991.

(** The getters of a valid [Date] answer in these ranges; the year is taken
    with four digits. *)
Definition calendar_four_digit_year (f : Date.fields) : bool :=
  (1 <=? Date.date f) && (Date.date f <=? 31)
  && (0 <=? Date.month f) && (Date.month f <=? 11)
  && (1000 <=? Date.fullYear f) && (Date.fullYear f <=? 9999)
  && (0 <=? Date.hours f) && (Date.hours f <=? 23)
  && (0 <=? Date.minutes f) && (Date.minutes f <=? 59).

(** Every timestamp and every numeric code of the contract keeps to its
    columns, and so do those of its drivers. *)
Definition contract_fits (c : RentalContract.t) : bool :=
  (len (formatDate (RentalContract.createdDate c) true) <=? 16)
  && (len (formatDate (RentalContract.checkoutDate c) true) <=? 16)
  && (len (formatDate (RentalContract.checkinDate c) true) <=? 16)
  && code_fits (RentalContract.checkoutLocation c)
  && code_fits (RentalContract.checkinLocation c)
  && code_fits (Agency.location (RentalContract.agency c))
  && driver_fits (RentalContract.mainDriver c)
  && match RentalContract.secondaryDriver c with
     | Some d => driver_fits d
     | None => true
     end.

(** The fields of a driver block and of a record, in the order of the
    [record += ...] statements. *)
Definition driver_fields (driver : Driver.t) : list jsstring :=
  [ padString (Driver.surname driver) 50 None;
    padString (Driver.name driver) 30 None;
    padEnd (formatDate (Driver.birthDate driver) false) 10 (str " ");
    padNumber (Location.code (Driver.birthPlace driver)) 9;
    padNumber (Location.code (Driver.citizenship driver)) 9;
    match Driver.residencePlace driver with
    | Some place => padNumber (Location.code place) 9
    | None => str "         "
    end;
    padString (or_empty (Driver.residenceAddress driver)) 150 None;
    padString (DocumentType.value (Driver.documentType driver)) 5 None;
    padString (Driver.documentNumber driver) 20 None;
    padNumber (Location.code (Driver.documentIssuePlace driver)) 9;
    padString (Driver.licenseNumber driver) 20 None;
    padNumber (Location.code (Driver.licenseIssuePlace driver)) 9;
    padString (or_empty (Driver.phone driver)) 20 None ].

Definition contract_fields (contract : RentalContract.t) : list jsstring :=
  let agency := RentalContract.agency contract in
  let vehicle := RentalContract.vehicle contract in
  [ padString (RentalContract.id contract) 50 None;
    padEnd (formatDate (RentalContract.createdDate contract) true) 16 (str " ");
    PaymentType.value (RentalContract.paymentType contract);
    padEnd (formatDate (RentalContract.checkoutDate contract) true) 16 (str " ");
    padNumber (Location.code (RentalContract.checkoutLocation contract)) 9;
    padString (RentalContract.checkoutAddress contract) 150 None;
    padEnd (formatDate (RentalContract.checkinDate contract) true) 16 (str " ");
    padNumber (Location.code (RentalContract.checkinLocation contract)) 9;
    padString (RentalContract.checkinAddress contract) 150 None;
    padString (RentalContract.operatorId contract) 50 None;
    padString (Agency.id agency) 30 None;
    padString (Agency.name agency) 70 None;
    padNumber (Location.code (Agency.location agency)) 9;
    padString (Agency.address agency) 150 None;
    padString (Agency.phone agency) 20 None;
    VehicleType.value (Vehicle.type vehicle);
    padString (Vehicle.brand vehicle) 50 None;
    padString (Vehicle.model vehicle) 100 None;
    padString (Vehicle.plate vehicle) 15 None;
    padString (or_empty (Vehicle.color vehicle)) 50 None;
    flag_char (Vehicle.hasGPS vehicle);
    flag_char (Vehicle.hasEngineBlock vehicle);
    formatDriver (RentalContract.mainDriver contract);
    match RentalContract.secondaryDriver contract with
    | Some driver => formatDriver driver
    | None => spaces 190
    end ].

(** Column at which the field of index [i] starts, given the widths. *)
Definition column (widths : list Z) (i : nat) : Z :=
  List.fold_right Z.add 0 (firstn i widths).

Definition driver_widths : list Z := [50; 30; 10; 9; 9; 9; 150; 5; 20; 9; 20; 9; 20].

Definition contract_widths (secondary : Z) : list Z :=
  [50; 16; 1; 16; 9; 150; 16; 9; 150; 50; 30; 70; 9; 150; 20; 1; 50; 100; 15; 50; 1; 1;
   350; secondary].

(** An event that delivers the body of an answer. *)
Definition is_body (e : event) : bool :=
  match e with
  | Body _ _ => true
  | _ => false
  end.

(** A request function for the examples: it fails on the slice that starts
    with contract 101 and answers every other slice with its size. *)
Definition second_request_fails (chunk : list nat) : completion Z :=
  match chunk with
  | 101%nat :: _ => Throw (str "Send failed: Error: timeout")
  | _ => Normal (len_of chunk)
  end.

(** A world in which [caller] has sent its request and got the response:
    it waits for the body. *)
Definition awaiting_body (c : Client.t) (caller : nat) : World :=
  {| client := c; pending := [(caller, AwaitJson)]; settled := [] |}.

(** An answer that carries no expiry. *)
Definition answer_without_expiry : TokenResponse.t :=
  {| TokenResponse.token_type := str "bearer";
     TokenResponse.expires_date := [];
     TokenResponse.access_token := str "abc" |}.

(** ** Text helpers of the table code *)

(** White space and line terminators, as [trim] sees them: tab to carriage
    return, space, no-break space, the Unicode space separators, the line
    and paragraph separators and the byte order mark. *)
Definition is_whitespace (c : code_unit) : bool :=
  ((9 <=? c) && (c <=? 13)) || (c =? 32) || (c =? 160) || (c =? 5760)
  || ((8192 <=? c) && (c <=? 8202)) || (c =? 8232) || (c =? 8233)
  || (c =? 8239) || (c =? 8287) || (c =? 12288) || (c =? 65279).

(** [s.trimStart()] *)
Fixpoint trimStart (s : jsstring) : jsstring :=
  match s with
  | [] => []
  | c :: rest => if is_whitespace c then trimStart rest else s
  end.

(** [s.trim()] *)
Definition trim (s : jsstring) : jsstring :=
  List.rev (trimStart (List.rev (trimStart s))).

(** [s.split(sep)] for a separator of one character; [current] is the
    piece being read. *)
Fixpoint split_from (sep : code_unit) (s current : jsstring) : list jsstring :=
  match s with
  | [] => [current]
  | c :: rest =>
      if c =? sep then current :: split_from sep rest []
      else split_from sep rest (current ++ [c])
  end.

Definition split (s : jsstring) (sep : code_unit) : list jsstring :=
  split_from sep s [].

(** [a === b] on strings. *)
Fixpoint string_eqb (a b : jsstring) : bool :=
  match a, b with
  | [], [] => true
  | x :: a', y :: b' => (x =? y) && string_eqb a' b'
  | _, _ => false
  end.

(** A [Map] with string keys: its entries in insertion order.  [set] on a
    key that is there replaces the value and keeps the place. *)
Module JSMap.
Definition t (V : Type) : Type := list (jsstring * V).

Fixpoint set {V : Type} (key : jsstring) (value : V) (m : t V) : t V :=
  match m with
  | [] => [(key, value)]
  | (k, v) :: rest =>
      if string_eqb k key then (k, value) :: rest
      else (k, v) :: set key value rest
  end.

Fixpoint get {V : Type} (key : jsstring) (m : t V) : option V :=
  match m with
  | [] => None
  | (k, v) :: rest => if string_eqb k key then Some v else get key rest
  end.
End JSMap.

(** ** Reference tables *)

(** One round of the loop of [parseTableCSV]. *)
Definition parseTableCSV_line (map : JSMap.t jsstring) (line : jsstring)
  : JSMap.t jsstring :=
  if falsy (trim line) then map
  else
    match split line 35 with
    | code :: value :: _ =>
        if negb (falsy code) && negb (falsy value)
        then JSMap.set (trim code) (trim value) map
        else map
    | _ => map
    end.

(** [parseTableCSV(data)]; [toString] is [data.toString("utf-8")]. *)
Definition parseTableCSV (toString : list byte -> jsstring) (data : list byte)
  : JSMap.t jsstring :=
  let content := toString data in
  let lines := split content 10 in
  List.fold_left parseTableCSV_line lines [].

Module TableResponse.
Record t := {
  esito : bool;
  filename : option jsstring;
  file : option (list byte)
}.
End TableResponse.

Definition tableNames : list jsstring :=
  [str "payment_types"; str "locations"; str "vehicle_types"; str "document_types"].

(** One round of the loop of [getAllTables]: a download that throws is
    logged and skipped. *)
Definition getAllTables_round (getTable : Z -> completion TableResponse.t)
    (tables : JSMap.t (list byte)) (i : Z) : JSMap.t (list byte) :=
  match getTable i with
  | Throw _ => tables
  | Normal table =>
      match TableResponse.file table, nth_error tableNames (Z.to_nat i) with
      | Some file, Some tableName =>
          if falsy tableName then tables else JSMap.set tableName file tables
      | _, _ => tables
      end
  end.

(** [getAllTables()]; [getTable] is [this.getTable]. *)
Definition getAllTables (getTable : Z -> completion TableResponse.t)
  : JSMap.t (list byte) :=
  List.fold_left (getAllTables_round getTable) [0; 1; 2; 3] [].

(** [createCodeToNameIndex(table)]: [entries] is [Object.entries(table)],
    [toText] is [String] on the codes of the table. *)
Definition createCodeToNameIndex {T : Type} (toText : T -> jsstring)
    (entries : list (jsstring * T)) : JSMap.t jsstring :=
  List.fold_left (fun index entry => JSMap.set (toText (snd entry)) (fst entry) index)
                 entries [].

(** [lookupLocation(code)] over the bundled table [LOCATIONS]. *)
Definition lookupLocation (LOCATIONS : list (jsstring * number)) (code : number)
  : option jsstring :=
  JSMap.get (String_ code)
            (createCodeToNameIndex (fun code : number => String_ code) LOCATIONS).

(** ** The table generator *)

(** [s.replace(/^\uFEFF/, ...)]: a byte order mark at the start is removed. *)
Definition strip_bom (s : jsstring) : jsstring :=
  match s with
  | c :: rest => if c =? 65279 then rest else s
  | [] => []
  end.

(** [normalizeLine(line)] *)
Definition normalizeLine (line : jsstring) : jsstring := trim (strip_bom line).

(** [normalizeHeader(header)]; [toLowerCase] is the method of that name. *)
Definition normalizeHeader (toLowerCase : jsstring -> jsstring) (header : jsstring)
  : jsstring :=
  toLowerCase (trim (strip_bom header)).

(** The loop of [parseCsvRow] from index [i] on, [row] being what is left
    of the row there. *)
Fixpoint parseCsvRow_loop (row current : jsstring) (inQuotes : bool)
    (result : list jsstring) : list jsstring :=
  match row with
  | [] => result ++ [trim current]
  | char :: rest =>
      if char =? 34 then
        match rest with
        | nextChar :: rest' =>
            if inQuotes && (nextChar =? 34)
            then parseCsvRow_loop rest' (current ++ [34]) inQuotes result
            else parseCsvRow_loop rest current (negb inQuotes) result
        | [] => parseCsvRow_loop rest current (negb inQuotes) result
        end
      else if (char =? 44) && negb inQuotes then
        parseCsvRow_loop rest [] inQuotes (result ++ [trim current])
      else parseCsvRow_loop rest (current ++ [char]) inQuotes result
  end.

(** [parseCsvRow(row)] *)
Definition parseCsvRow (row : jsstring) : list jsstring :=
  parseCsvRow_loop row [] false [].

(** [array.findIndex(p)], counting from [i]. *)
Fixpoint findIndex_from {A : Type} (p : A -> bool) (l : list A) (i : Z) : Z :=
  match l with
  | [] => -1
  | a :: rest => if p a then i else findIndex_from p rest (i + 1)
  end.

(** [findHeaderIndex(headers, acceptedHeaders)] *)
Definition findHeaderIndex (toLowerCase : jsstring -> jsstring)
    (headers acceptedHeaders : list jsstring) : Z :=
  let accepted := List.map toLowerCase acceptedHeaders in
  findIndex_from (fun header => existsb (string_eqb header) accepted) headers 0.

(** ** Writing tables and rows, to read them back *)

(** A table in the line format [parseTableCSV] reads: code, [#], label,
    line feed. *)
Definition table_text (entries : list (jsstring * jsstring)) : jsstring :=
  List.concat (List.map (fun e => fst e ++ [35] ++ snd e ++ [10]) entries).

Definition first_is_text (s : jsstring) : bool :=
  match s with
  | c :: _ => negb (is_whitespace c)
  | [] => false
  end.

(** A code or label as a table holds it: not empty, no white space at
    either end, no [#] and no line feed inside. *)
Definition clean (s : jsstring) : bool :=
  first_is_text s && first_is_text (List.rev s)
  && forallb (fun c => negb (c =? 35) && negb (c =? 10)) s.

(** The last entry with code [key], if any. *)
Definition last_with_key {V : Type} (key : jsstring) (entries : list (jsstring * V))
  : option V :=
  match List.find (fun e => string_eqb (fst e) key) (List.rev entries) with
  | Some e => Some (snd e)
  | None => None
  end.

(** A field in double quotes, the quotes inside it doubled. *)
Fixpoint doubled_quotes (field : jsstring) : jsstring :=
  match field with
  | [] => []
  | c :: rest => if c =? 34 then 34 :: 34 :: doubled_quotes rest
                 else c :: doubled_quotes rest
  end.

Definition quoted (field : jsstring) : jsstring := 34 :: doubled_quotes field ++ [34].

(** Fields joined by commas. *)
Fixpoint joined (fields : list jsstring) : jsstring :=
  match fields with
  | [] => []
  | [f] => f
  | f :: rest => f ++ 44 :: joined rest
  end.

(** A download function for the examples: the table of locations cannot be
    fetched, the others come with a file. *)
Definition locations_unavailable (i : Z) : completion TableResponse.t :=
  if i =? 1 then Throw (str "Table download failed: Error: timeout")
  else Normal {| TableResponse.esito := true;
                 TableResponse.filename := Some (str "table.csv");
                 TableResponse.file := Some [49; 35; 65] |}.

(** * Properties *)

(** ** Strings and padding *)

Lemma len_app (a b : jsstring) : len (a ++ b) = len a + len b.
Proof. unfold len. rewrite length_app. lia. Qed.

Lemma len_nonneg (s : jsstring) : 0 <= len s.
Proof. unfold len. lia. Qed.

Lemma falsy_false_length (s : jsstring) : falsy s = false -> (0 < List.length s)%nat.
Proof. destruct s; simpl; [discriminate | lia]. Qed.

Lemma length_concat_repeat (f : jsstring) (n : nat) :
  List.length (List.concat (List.repeat f n)) = (n * List.length f)%nat.
Proof.
  induction n as [|n IH]; simpl; [reflexivity|].
  rewrite length_app, IH. reflexivity.
Qed.

Lemma length_truncatedStringFiller (f : jsstring) (n : nat) :
  falsy f = false -> List.length (truncatedStringFiller f n) = n.
Proof.
  intros Hf. apply falsy_false_length in Hf.
  unfold truncatedStringFiller.
  rewrite length_firstn, length_concat_repeat. nia.
Qed.

Lemma truncatedStringFiller_single (c : code_unit) (n : nat) :
  truncatedStringFiller [c] n = List.repeat c n.
Proof.
  unfold truncatedStringFiller.
  assert (E : List.concat (List.repeat ([c] : jsstring) n) = List.repeat c n).
  { induction n as [|n IH]; simpl; [reflexivity | now rewrite IH]. }
  rewrite E. rewrite <- (repeat_length c n) at 1. apply firstn_all.
Qed.

Lemma len_padEnd (s fill : jsstring) (w : Z) :
  falsy fill = false -> len (padEnd s w fill) = Z.max w (len s).
Proof.
  intros Hf. unfold padEnd. rewrite Hf.
  destruct (Z.leb_spec w (len s)); [lia|].
  rewrite len_app. unfold len at 2.
  rewrite length_truncatedStringFiller by assumption. lia.
Qed.

Lemma len_padStart (s fill : jsstring) (w : Z) :
  falsy fill = false -> len (padStart s w fill) = Z.max w (len s).
Proof.
  intros Hf. unfold padStart. rewrite Hf.
  destruct (Z.leb_spec w (len s)); [lia|].
  rewrite len_app. unfold len at 1.
  rewrite length_truncatedStringFiller by assumption. lia.
Qed.

Lemma substring_prefix (s : jsstring) (w : Z) :
  w < len s -> substring s 0 w = firstn (Z.to_nat w) s.
Proof.
  intros Hw. pose proof (len_nonneg s) as Hs.
  unfold substring, clamp.
  replace (Z.min (Z.max 0 0) (len s)) with 0 by lia.
  replace (Z.min (Z.max w 0) (len s)) with (Z.max w 0) by lia.
  replace (Z.min 0 (Z.max w 0)) with 0 by lia.
  replace (Z.max 0 (Z.max w 0) - 0) with (Z.max w 0) by lia.
  simpl skipn. f_equal. lia.
Qed.

Lemma padString_truncates (value : jsstring) (w : Z) (fill : option jsstring) :
  w < len value -> padString value w fill = firstn (Z.to_nat w) value.
Proof.
  intros Hw. unfold padString.
  destruct (Z.ltb_spec w (len value)); [|lia].
  now apply substring_prefix.
Qed.

Lemma padString_pads (value : jsstring) (w : Z) (c : code_unit) :
  len value <= w ->
  padString value w (Some [c]) = value ++ List.repeat c (Z.to_nat (w - len value)).
Proof.
  intros Hw. unfold padString, padEnd.
  destruct (Z.ltb_spec w (len value)); [lia|].
  destruct (Z.leb_spec w (len value)).
  - replace (w - len value) with 0 by lia. simpl. now rewrite app_nil_r.
  - simpl falsy. cbv iota. now rewrite truncatedStringFiller_single.
Qed.

Lemma len_padString (value : jsstring) (w : Z) (fill : option jsstring) :
  0 <= w ->
  falsy (match fill with Some f => f | None => str " " end) = false ->
  len (padString value w fill) = w.
Proof.
  intros Hw Hf. unfold padString.
  destruct (Z.ltb_spec w (len value)) as [Hlt|Hge].
  - rewrite substring_prefix by assumption.
    unfold len in *. rewrite length_firstn. lia.
  - rewrite len_padEnd by assumption. lia.
Qed.

Lemma len_padString_default (value : jsstring) (w : Z) :
  0 <= w -> len (padString value w None) = w.
Proof. intros Hw. now apply len_padString. Qed.

Lemma len_padNumber (value : any_number) (w : Z) :
  len (padNumber value w) = Z.max w (len (String_ value)).
Proof. unfold padNumber. now apply len_padStart. Qed.

(** ** Decimal text of a number *)

Lemma decimal_value_snoc (s : jsstring) (c : code_unit) :
  decimal_value (s ++ [c]) = 10 * decimal_value s + (c - 48).
Proof. unfold decimal_value. now rewrite fold_left_app. Qed.

Lemma log2_tenth (n : Z) : 10 <= n -> Z.log2 (n / 10) < Z.log2 n.
Proof.
  intros Hn.
  assert (H2 : Z.log2 (n / 2) = Z.log2 n - 1).
  { rewrite <- (Z.pow_1_r 2) at 1. rewrite <- Z.shiftr_div_pow2 by lia.
    rewrite Z.log2_shiftr by lia.
    assert (1 <= Z.log2 n) by (apply (Z.log2_le_mono 2 n); lia). lia. }
  assert (Hle : n / 10 <= n / 2) by (apply Z.div_le_compat_l; lia).
  apply Z.log2_le_mono in Hle. lia.
Qed.

(** The fuel of [digits] is enough: the digits denote the number. *)
Lemma digits_fuel_value (fuel : nat) :
  forall n, 0 <= n -> Z.log2 n < Z.of_nat fuel ->
            decimal_value (digits_fuel fuel n) = n.
Proof.
  induction fuel as [|fuel IH]; intros n Hn Hfuel.
  - pose proof (Z.log2_nonneg n). lia.
  - cbn [digits_fuel]. destruct (Z.ltb_spec n 10) as [Hlt|Hge].
    + unfold decimal_value, digit_char. cbn [fold_left]. lia.
    + rewrite decimal_value_snoc, IH.
      * unfold digit_char. pose proof (Z.div_mod n 10). lia.
      * apply Z.div_pos; lia.
      * pose proof (log2_tenth n Hge). lia.
Qed.

Lemma digits_value (n : Z) : 0 <= n -> decimal_value (digits n) = n.
Proof. intros Hn. unfold digits. apply digits_fuel_value; [assumption | lia]. Qed.

Lemma digits_fuel_are_digits (fuel : nat) :
  forall n, 0 <= n -> forallb is_digit (digits_fuel fuel n) = true.
Proof.
  induction fuel as [|fuel IH]; intros n Hn; cbn [digits_fuel]; [reflexivity|].
  assert (Hd : forall d, 0 <= d < 10 -> is_digit (digit_char d) = true).
  { intros d Hd. unfold is_digit, digit_char.
    apply andb_true_intro. split; apply Z.leb_le; lia. }
  destruct (Z.ltb_spec n 10).
  - cbn [forallb]. rewrite Hd by lia. reflexivity.
  - rewrite forallb_app, IH by (apply Z.div_pos; lia).
    cbn [forallb]. rewrite Hd by (apply Z.mod_pos_bound; lia). reflexivity.
Qed.

Lemma digits_fuel_length (fuel : nat) :
  forall (k : nat) (n : Z), n < 10 ^ Z.of_nat (S k) ->
    (List.length (digits_fuel fuel n) <= S k)%nat.
Proof.
  induction fuel as [|fuel IH]; intros k n Hn; cbn [digits_fuel]; [simpl; lia|].
  destruct (Z.ltb_spec n 10) as [Hlt|Hge]; [simpl; lia|].
  rewrite length_app. cbn [List.length].
  destruct k as [|k].
  - change (10 ^ Z.of_nat 1) with 10 in Hn. lia.
  - assert (Hk : n / 10 < 10 ^ Z.of_nat (S k)).
    { apply Z.div_lt_upper_bound; [lia|].
      rewrite (Nat2Z.inj_succ (S k)), Z.pow_succ_r in Hn by lia. exact Hn. }
    specialize (IH k (n / 10) Hk). lia.
Qed.

(** A code between 0 and 999999999 fits the 9 columns of a code field. *)
Lemma code_in_range_fits (l : Location.t) (z : Z) :
  Location.code l = Int z -> 0 <= z <= 999999999 -> code_fits l = true.
Proof.
  intros Hc Hz. unfold code_fits. rewrite Hc. simpl.
  destruct (Z.ltb_spec z 0); [lia|].
  apply Z.leb_le. unfold len, digits.
  pose proof (digits_fuel_length (S (Z.to_nat (Z.log2 z))) 8 z) as H9.
  assert (z < 10 ^ Z.of_nat 9) by (change (10 ^ Z.of_nat 9) with 1000000000; lia).
  specialize (H9 ltac:(assumption)). lia.
Qed.

(** ** Field codec: text *)

(** C3.  [padString] right-pads [value] with the fill character to exactly
    [width] characters when it fits and truncates it to its first [width]
    characters when it does not; the width counts characters (elements of
    the string), not bytes of storage: "José" padded to 6 has 6 characters
    and 7 UTF-8 bytes.  The fill defaults to a space. *)
Theorem padString_pads_or_truncates
    (value : jsstring) (width : Z) (fill : code_unit) (Hwidth : 0 <= width) :
  len (padString value width (Some [fill])) = width
  /\ (len value <= width ->
      padString value width (Some [fill])
      = value ++ List.repeat fill (Z.to_nat (width - len value)))
  /\ (width < len value ->
      padString value width (Some [fill]) = firstn (Z.to_nat width) value)
  /\ padString value width None = padString value width (Some [32])
  /\ padString (str "test") 10 None = str "test      "
  /\ padString (str "hello world") 5 None = str "hello"
  /\ len (padString jose 6 None) = 6
  /\ len_of (utf8 (padString jose 6 None)) = 7.
Proof.
  split; [now apply len_padString|].
  split; [now apply padString_pads|].
  split; [now apply padString_truncates|].
  repeat split; reflexivity.
Qed.

Lemma padString_pads_or_truncates_witness :
  0 <= 5
  /\ padString (str "hello world") 5 (Some [42]) = firstn 5 (str "hello world")
  /\ padString (str "ab") 5 (Some [42]) = str "ab***".
Proof.
  split; [lia|].
  destruct (padString_pads_or_truncates (str "hello world") 5 42 ltac:(lia))
    as (_ & _ & Htrunc & _).
  destruct (padString_pads_or_truncates (str "ab") 5 42 ltac:(lia))
    as (_ & Hpad & _).
  split.
  - apply Htrunc. vm_compute. reflexivity.
  - etransitivity; [apply Hpad; vm_compute; discriminate | reflexivity].
Defined.

(** ** Field codec: numeric codes *)

(** C4.  For every number and width, [padNumber] writes the text that
    [String] prints for the number behind as many zeros as it takes to
    reach [width]; a text wider than [width] comes back as it is, not
    truncated, so the result is longer than [width].  For a non-negative
    integer up to [Number.MAX_SAFE_INTEGER] that text is its decimal
    representation; [padNumber(42, 5)] is ["00042"] and
    [padNumber(123456, 5)] is ["123456"], while [1e21], which [String]
    prints as ["1e+21"], gives ["00001e+21"] at width 9. *)
Theorem padNumber_pads_or_overflows (value : any_number) (width : Z) :
  (len (String_ value) <= width ->
   padNumber value width
   = List.repeat 48 (Z.to_nat (width - len (String_ value))) ++ String_ value
   /\ len (padNumber value width) = width)
  /\ (width < len (String_ value) ->
      padNumber value width = String_ value /\ width < len (padNumber value width))
  /\ (forall z, 0 <= z <= MAX_SAFE_INTEGER -> value = Int z ->
      forallb is_digit (String_ value) = true /\ decimal_value (String_ value) = z)
  /\ padNumber (Int 42) 5 = str "00042"
  /\ padNumber (Int 123456) 5 = str "123456"
  /\ padNumber (Other (str "1e+21")) 9 = str "00001e+21"
  /\ padNumber (Other (str "0.5")) 5 = str "000.5"
  /\ padNumber NaN 5 = str "00NaN".
Proof.
  split; [|split; [|split; [|repeat split; reflexivity]]].
  - intros Hfit. split.
    + unfold padNumber, padStart.
      destruct (Z.leb_spec width (len (String_ value))).
      * replace (width - len (String_ value)) with 0 by lia. reflexivity.
      * simpl falsy. cbv iota.
        change (str "0") with ([48] : jsstring).
        now rewrite truncatedStringFiller_single.
    + rewrite len_padNumber. lia.
  - intros Hover.
    assert (E : padNumber value width = String_ value).
    { unfold padNumber, padStart.
      destruct (Z.leb_spec width (len (String_ value))); [reflexivity | lia]. }
    rewrite E. split; [reflexivity | assumption].
  - intros z Hz ->. cbn [String_]. destruct (Z.ltb_spec z 0); [lia|].
    split; [unfold digits; apply digits_fuel_are_digits | apply digits_value]; lia.
Qed.

Lemma padNumber_pads_or_overflows_witness :
  padNumber (Int 7) 3 = str "007" /\ padNumber (Int 12345) 3 = str "12345".
Proof.
  destruct (padNumber_pads_or_overflows (Int 7) 3) as ((Hpad & _) & _).
  { vm_compute. discriminate. }
  destruct (padNumber_pads_or_overflows (Int 12345) 3) as (_ & Hover & _).
  destruct Hover as (Hsame & _).
  { vm_compute. reflexivity. }
  rewrite Hpad, Hsame. split; reflexivity.
Defined.

(** ** Record composer: widths *)

Lemma len_nil : len [] = 0.
Proof. reflexivity. Qed.

Lemma len_PaymentType (p : PaymentType.t) : len (PaymentType.value p) = 1.
Proof. now destruct p. Qed.

Lemma len_VehicleType (v : VehicleType.t) : len (VehicleType.value v) = 1.
Proof. now destruct v. Qed.

Lemma len_flag_char (f : option bool) : len (flag_char f) = 1.
Proof. destruct f as [[|]|]; reflexivity. Qed.

Lemma len_spaces (n : nat) : len (spaces n) = Z.of_nat n.
Proof. unfold len, spaces. now rewrite repeat_length. Qed.

Ltac field_widths :=
  cbv zeta;
  repeat rewrite len_app;
  repeat rewrite len_padString_default by lia;
  repeat rewrite len_padNumber;
  repeat rewrite len_padEnd by reflexivity;
  repeat rewrite len_PaymentType;
  repeat rewrite len_VehicleType;
  repeat rewrite len_flag_char;
  rewrite ?len_nil.

(** The exact width of a driver block. *)
Lemma len_formatDriver (d : Driver.t) :
  len (formatDriver d)
  = 295 + Z.max 10 (len (formatDate (Driver.birthDate d) false)) + driver_code_columns d.
Proof.
  unfold formatDriver, driver_code_columns, code_columns.
  field_widths.
  destruct (Driver.residencePlace d) as [p|].
  - rewrite len_padNumber. lia.
  - change (len (str "         ")) with 9. lia.
Qed.

Lemma driver_width_min (d : Driver.t) : driver_width <= len (formatDriver d).
Proof.
  rewrite len_formatDriver. unfold driver_width, driver_code_columns, code_columns.
  destruct (Driver.residencePlace d); lia.
Qed.

(** The exact width of a record. *)
Lemma len_formatContract (c : RentalContract.t) :
  len (formatContract c)
  = 889
    + timestamp_columns (RentalContract.createdDate c)
    + timestamp_columns (RentalContract.checkoutDate c)
    + timestamp_columns (RentalContract.checkinDate c)
    + code_columns (RentalContract.checkoutLocation c)
    + code_columns (RentalContract.checkinLocation c)
    + code_columns (Agency.location (RentalContract.agency c))
    + len (formatDriver (RentalContract.mainDriver c))
    + match RentalContract.secondaryDriver c with
      | Some d => len (formatDriver d)
      | None => 190
      end.
Proof.
  unfold formatContract, timestamp_columns, code_columns.
  field_widths.
  destruct (RentalContract.secondaryDriver c) as [d|].
  - lia.
  - rewrite len_spaces. lia.
Qed.





(** ** Driver block *)

Lemma String_length_bound (z : Z) (k : nat) :
  0 <= z < 10 ^ Z.of_nat (S k) -> len (String_ (Int z)) <= Z.of_nat (S k).
Proof.
  intros Hz. cbn [String_]. destruct (Z.ltb_spec z 0); [lia|].
  unfold len, digits.
  pose proof (digits_fuel_length (S (Z.to_nat (Z.log2 z))) k z (proj2 Hz)). lia.
Qed.

(** A calendar date with a year of at most four digits is printed in at
    most 10 characters. *)
Lemma date_in_range_fits (f : Date.fields) :
  0 <= Date.date f <= 31 -> 0 <= Date.month f <= 11 -> 0 <= Date.fullYear f <= 9999 ->
  len (formatDate (Date.Valid f) false) <= 10.
Proof.
  intros Hd Hm Hy. unfold formatDate. cbv zeta.
  cbn [Date.getDate Date.getMonth Date.getFullYear Date.get succ_number].
  rewrite !len_app, !len_padStart by reflexivity.
  change (len (str "/")) with 1.
  pose proof (String_length_bound (Date.date f) 1) as H1.
  pose proof (String_length_bound (Date.month f + 1) 1) as H2.
  pose proof (String_length_bound (Date.fullYear f) 3) as H3.
  change (10 ^ Z.of_nat 2) with 100 in *.
  change (10 ^ Z.of_nat 4) with 10000 in *.
  lia.
Qed.

(** C2, as the code has it.  A driver whose numeric codes each print in at
    most 9 characters and whose birth date prints in at most 10 is written
    as exactly 350 characters, whichever of the optional fields (residence
    place, residence address, phone) are there. *)
Theorem formatDriver_fixed_width (driver : Driver.t) (Hfits : driver_fits driver = true) :
  len (formatDriver driver) = 350.
Proof.
  unfold driver_fits, code_fits in Hfits.
  repeat (apply andb_prop in Hfits; destruct Hfits as [Hfits ?]).
  rewrite len_formatDriver. unfold driver_code_columns, code_columns.
  destruct (Driver.residencePlace driver) as [p|]; cbn [optional_code_fits] in *;
    unfold code_fits in *; lia.
Qed.

Lemma formatDriver_fixed_width_witness :
  driver_fits createTestDriver = true /\ len (formatDriver createTestDriver) = 350.
Proof.
  split; [reflexivity|].
  apply (formatDriver_fixed_width createTestDriver). reflexivity.
Defined.

(** C2 fails as stated: filling in the optional residence place with a
    ten-digit code changes the width of the driver block. *)
Lemma formatDriver_width_varies :
  driver_wide_residence = with_residencePlace (Some (place 1234567890 "Roma")) createTestDriver
  /\ Driver.residencePlace createTestDriver = None
  /\ len (formatDriver createTestDriver) = 350
  /\ len (formatDriver driver_wide_residence) = 351.
Proof. repeat split; vm_compute; reflexivity. Qed.

(** ** Record *)

(** C1, evaluated on the code.  The filler for an absent secondary driver
    is 190 characters and a driver block is never narrower than 350, so
    adding a secondary driver to any contract lengthens the record by at
    least 160 characters; the test contract gives 1504 characters without
    and 1664 with one. *)
Theorem formatContract_width_depends_on_secondary (c : RentalContract.t) (d : Driver.t) :
  len (formatContract (with_secondaryDriver (Some d) c))
  = len (formatContract (with_secondaryDriver None c)) + (len (formatDriver d) - 190)
  /\ 350 <= len (formatDriver d)
  /\ len (formatContract (with_secondaryDriver None c)) + 160
     <= len (formatContract (with_secondaryDriver (Some d) c))
  /\ len (formatContract createTestContract) = 1504
  /\ len (formatContract (with_secondaryDriver (Some createTestDriver) createTestContract))
     = 1664.
Proof.
  assert (E : len (formatContract (with_secondaryDriver (Some d) c))
              = len (formatContract (with_secondaryDriver None c))
                + (len (formatDriver d) - 190)).
  { rewrite !len_formatContract. cbn. lia. }
  pose proof (driver_width_min d) as Hmin. change driver_width with 350 in Hmin.
  split; [exact E|]. split; [exact Hmin|]. split; [lia|].
  split; vm_compute; reflexivity.
Qed.




(** ** Enumerations *)

Lemma formatDriver_fields (d : Driver.t) : formatDriver d = List.concat (driver_fields d).
Proof.
  unfold formatDriver, driver_fields. cbv zeta. cbn [List.concat].
  rewrite app_nil_r, <- !app_assoc. reflexivity.
Qed.

Lemma formatContract_fields (c : RentalContract.t) :
  formatContract c = List.concat (contract_fields c).
Proof.
  unfold formatContract, contract_fields. cbv zeta. cbn [List.concat].
  rewrite app_nil_r, <- !app_assoc. reflexivity.
Qed.

(** C10.  The record does not tell a car from an "other" vehicle, nor a
    passport from a driving licence.  [CAR] and [OTHER] are two members of
    [VehicleType] with one string, ["A"], and no other two members share
    theirs; [PASSPORT] and [DRIVERS_LICENSE] are two members of
    [DocumentType] with one string, ["P"].  The contract holds the string,
    so a contract written with one member is the contract written with the
    other, and the records are the same.  What the record carries of the
    vehicle type is that one character, and of a document type the string
    and four spaces: ["A"] and ["P    "] for these members. *)
Theorem formatContract_not_injective_on_enums (c : RentalContract.t) (d : Driver.t) :
  let vehicle_of m :=
    with_vehicle (with_vehicle_type (VehicleType.get m) (RentalContract.vehicle c)) c in
  let driver_of m := with_documentType (DocumentType.get m) d in
  let car := vehicle_of VehicleType.CAR in
  let other := vehicle_of VehicleType.OTHER in
  let passport := driver_of DocumentType.PASSPORT in
  let licence := driver_of DocumentType.DRIVERS_LICENSE in
  (VehicleType.CAR <> VehicleType.OTHER
   /\ VehicleType.value (VehicleType.get VehicleType.CAR) = str "A"
   /\ VehicleType.value (VehicleType.get VehicleType.OTHER) = str "A"
   /\ car = other
   /\ formatContract car = formatContract other)
  /\ (DocumentType.PASSPORT <> DocumentType.DRIVERS_LICENSE
      /\ DocumentType.value (DocumentType.get DocumentType.PASSPORT) = str "P"
      /\ DocumentType.value (DocumentType.get DocumentType.DRIVERS_LICENSE) = str "P"
      /\ passport = licence
      /\ formatDriver passport = formatDriver licence
      /\ formatContract (with_mainDriver passport c)
         = formatContract (with_mainDriver licence c)
      /\ formatContract (with_secondaryDriver (Some passport) c)
         = formatContract (with_secondaryDriver (Some licence) c))
  /\ (forall m m',
        VehicleType.value (VehicleType.get m) = VehicleType.value (VehicleType.get m')
        <-> m = m'
            \/ (m = VehicleType.CAR /\ m' = VehicleType.OTHER)
            \/ (m = VehicleType.OTHER /\ m' = VehicleType.CAR))
  /\ (forall m m',
        DocumentType.value (DocumentType.get m) = DocumentType.value (DocumentType.get m')
        <-> m = m'
            \/ (m = DocumentType.PASSPORT /\ m' = DocumentType.DRIVERS_LICENSE)
            \/ (m = DocumentType.DRIVERS_LICENSE /\ m' = DocumentType.PASSPORT))
  /\ (forall m,
        formatContract (vehicle_of m)
        = List.concat (firstn 15 (contract_fields c))
          ++ VehicleType.value (VehicleType.get m)
          ++ List.concat (skipn 16 (contract_fields c)))
  /\ (forall m,
        formatDriver (driver_of m)
        = List.concat (firstn 7 (driver_fields d))
          ++ padString (DocumentType.value (DocumentType.get m)) 5 None
          ++ List.concat (skipn 8 (driver_fields d)))
  /\ padString (DocumentType.value (DocumentType.get DocumentType.PASSPORT)) 5 None
     = str "P    ".
Proof.
  cbv zeta.
  split; [|split; [|split; [|split; [|split; [|split]]]]].
  - split; [discriminate|]. repeat split; reflexivity.
  - split; [discriminate|]. repeat split; reflexivity.
  - intros m m'. split.
    + destruct m, m'; intros E; try discriminate E; auto.
    + intros [->|[[-> ->]|[-> ->]]]; reflexivity.
  - intros m m'. split.
    + destruct m, m'; intros E; try discriminate E; auto.
    + intros [->|[[-> ->]|[-> ->]]]; reflexivity.
  - intros m. rewrite formatContract_fields.
    unfold contract_fields. cbv zeta.
    cbn [firstn skipn List.concat RentalContract.vehicle with_vehicle override
         Vehicle.type with_vehicle_type].
    rewrite <- !app_assoc. reflexivity.
  - intros m. rewrite formatDriver_fields.
    unfold driver_fields.
    cbn [firstn skipn List.concat Driver.documentType with_documentType].
    rewrite <- !app_assoc. reflexivity.
  - reflexivity.
Qed.

(** ** Validation gate *)

Lemma falsy_len (s : jsstring) : falsy s = negb (1 <=? len s).
Proof.
  destruct s as [|c s]; [reflexivity|]. unfold len. cbn [falsy List.length].
  destruct (Z.leb_spec 1 (Z.of_nat (S (List.length s)))); [reflexivity | lia].
Qed.

Lemma upper_bound_test (n bound : Z) : (bound <? n) = negb (n <=? bound).
Proof. destruct (Z.ltb_spec bound n), (Z.leb_spec n bound); try reflexivity; lia. Qed.

(** The function computes the violations of the rule table. *)
Lemma isValidContractData_violations (c : RentalContract.t) :
  isValidContractData c = violations c.
Proof.
  unfold isValidContractData, violations, rule_table.
  cbn [List.filter List.map fst snd].
  rewrite !falsy_len, !upper_bound_test, <- !negb_andb.
  destruct (RentalContract.secondaryDriver c) as [d|].
  - rewrite !falsy_len, <- !negb_andb.
    repeat match goal with
           | |- context [negb ?b] => destruct b; cbn [negb]
           end; reflexivity.
  - repeat match goal with
           | |- context [negb ?b] => destruct b; cbn [negb]
           end; reflexivity.
Qed.

Lemma rule_messages_distinct : NoDup (List.map snd rule_table).
Proof.
  unfold rule_table. cbn [List.map snd].
  repeat (constructor; [vm_compute; intuition discriminate|]).
  constructor.
Qed.

Section Filtered.
Context {A B : Type} (f : A -> B) (p : A -> bool).

Lemma map_injective_on (l : list A) :
  NoDup (List.map f l) ->
  forall x y, In x l -> In y l -> f x = f y -> x = y.
Proof.
  induction l as [|a l IH]; intros Hnd x y Hx Hy Hxy; [contradiction|].
  cbn [List.map] in Hnd. inversion Hnd as [|? ? Hnotin Hnd']; subst.
  destruct Hx as [->|Hx], Hy as [->|Hy].
  - reflexivity.
  - exfalso. apply Hnotin. rewrite Hxy. now apply in_map.
  - exfalso. apply Hnotin. rewrite <- Hxy. now apply in_map.
  - now apply IH.
Qed.

Lemma in_map_filter (l : list A) :
  NoDup (List.map f l) ->
  forall x, In x l -> (In (f x) (List.map f (List.filter p l)) <-> p x = true).
Proof.
  intros Hnd x Hx. split.
  - intros Hin. apply in_map_iff in Hin. destruct Hin as (y & Hfy & Hy).
    apply filter_In in Hy. destruct Hy as [Hy Hp].
    now rewrite <- (map_injective_on l Hnd y x Hy Hx Hfy).
  - intros Hp. apply in_map. apply filter_In. now split.
Qed.

Lemma NoDup_map_filter (l : list A) :
  NoDup (List.map f l) -> NoDup (List.map f (List.filter p l)).
Proof.
  induction l as [|a l IH]; intros Hnd; cbn [List.filter List.map]; [constructor|].
  cbn [List.map] in Hnd. inversion Hnd as [|? ? Hnotin Hnd']; subst.
  destruct (p a); [|now apply IH].
  cbn [List.map]. constructor; [|now apply IH].
  intros Hin. apply Hnotin. apply in_map_iff in Hin.
  destruct Hin as (y & Hfy & Hy). apply filter_In in Hy.
  rewrite <- Hfy. apply in_map. tauto.
Qed.

Lemma map_filter_nil (l : list A) :
  List.map f (List.filter p l) = [] <-> (forall x, In x l -> p x = false).
Proof.
  induction l as [|a l IH]; cbn [List.filter].
  - split; [intros _ x [] | reflexivity].
  - destruct (p a) eqn:Hpa.
    + split; [discriminate|]. intros H. specialize (H a (or_introl eq_refl)). congruence.
    + rewrite IH. split.
      * intros H x [->|Hx]; [assumption | now apply H].
      * intros H x Hx. apply H. now right.
Qed.
End Filtered.

(** C6.  [isValidContractData] is a total function that reports exactly
    the violated rules of the rule table: every rule is tested whatever the
    others give, a violated rule is reported once and a satisfied rule not
    at all; nothing is reported for a contract that meets all rules, and an
    empty contract id is reported with the message about its bounds. *)
Theorem isValidContractData_reports_violated_rules (c : RentalContract.t) :
  isValidContractData c = violations c
  /\ NoDup (isValidContractData c)
  /\ (forall rule, In rule rule_table ->
        (In (snd rule) (isValidContractData c) <-> fst rule c = false))
  /\ List.length (isValidContractData c)
     = List.length (List.filter (fun rule => negb (fst rule c)) rule_table)
  /\ (isValidContractData c = [] <-> forall rule, In rule rule_table -> fst rule c = true)
  /\ (RentalContract.id c = [] ->
        In (str "Contract ID must be between 1 and 50 characters") (isValidContractData c))
  /\ isValidContractData createTestContract = []
  /\ isValidContractData (with_id [] createTestContract)
     = [str "Contract ID must be between 1 and 50 characters"].
Proof.
  rewrite isValidContractData_violations. unfold violations.
  split; [reflexivity|].
  split; [apply NoDup_map_filter, rule_messages_distinct|].
  assert (Hin : forall rule, In rule rule_table ->
            (In (snd rule) (List.map snd (List.filter (fun r => negb (fst r c)) rule_table))
             <-> fst rule c = false)).
  { intros rule Hrule.
    rewrite (in_map_filter snd (fun r => negb (fst r c)) rule_table
               rule_messages_distinct rule Hrule).
    apply negb_true_iff. }
  split; [exact Hin|].
  split; [apply length_map|].
  split.
  { rewrite map_filter_nil. split; intros H rule Hrule; specialize (H rule Hrule).
    - now apply negb_false_iff in H.
    - now apply negb_false_iff. }
  split.
  { intros Hid.
    apply (Hin (fun c => (1 <=? len (RentalContract.id c)) && (len (RentalContract.id c) <=? 50),
                str "Contract ID must be between 1 and 50 characters")).
    - left. reflexivity.
    - cbn [fst]. rewrite Hid. reflexivity. }
  split; reflexivity.
Qed.

Lemma isValidContractData_reports_violated_rules_witness :
  RentalContract.id (with_id [] createTestContract) = []
  /\ In (str "Contract ID must be between 1 and 50 characters")
        (isValidContractData (with_id [] createTestContract)).
Proof.
  split; [reflexivity|].
  destruct (isValidContractData_reports_violated_rules (with_id [] createTestContract))
    as (_ & _ & _ & _ & _ & Hid & _).
  apply Hid. reflexivity.
Defined.

(** ** Encryption *)

Lemma utf8_ascii (s : jsstring) : forallb ascii_unit s = true -> utf8 s = s.
Proof.
  induction s as [|c s IH]; intros H; [reflexivity|].
  cbn [forallb] in H. apply andb_prop in H. destruct H as [Hc Hs].
  unfold ascii_unit in Hc. apply andb_prop in Hc. destruct Hc as [_ Hc].
  cbn [utf8]. rewrite Hc. now rewrite IH.
Qed.

Lemma forallb_firstn {A : Type} (p : A -> bool) (n : nat) (l : list A) :
  forallb p l = true -> forallb p (firstn n l) = true.
Proof.
  revert n. induction l as [|a l IH]; intros [|n] H; try reflexivity.
  cbn [forallb firstn] in *. apply andb_prop in H. destruct H as [Ha Hl].
  now rewrite Ha, IH.
Qed.

Lemma forallb_skipn {A : Type} (p : A -> bool) (n : nat) (l : list A) :
  forallb p l = true -> forallb p (skipn n l) = true.
Proof.
  revert n. induction l as [|a l IH]; intros [|n] H; try reflexivity; try assumption.
  cbn [forallb skipn] in *. apply andb_prop in H. destruct H as [_ Hl]. now apply IH.
Qed.

Lemma substring_key (apiKey : jsstring) :
  48 <= len apiKey -> substring apiKey 0 32 = firstn 32 apiKey.
Proof. intros H. rewrite substring_prefix by lia. reflexivity. Qed.

Lemma substring_iv (apiKey : jsstring) :
  48 <= len apiKey -> substring apiKey 32 48 = firstn 16 (skipn 32 apiKey).
Proof.
  intros H. unfold substring, clamp.
  replace (Z.min (Z.max 32 0) (len apiKey)) with 32 by lia.
  replace (Z.min (Z.max 48 0) (len apiKey)) with 48 by lia.
  reflexivity.
Qed.

Lemma firstn_skipn_firstn {A : Type} (l : list A) :
  firstn 32 (firstn 48 l) = firstn 32 l
  /\ firstn 16 (skipn 32 (firstn 48 l)) = firstn 16 (skipn 32 l).
Proof.
  split.
  - rewrite firstn_firstn. reflexivity.
  - rewrite skipn_firstn_comm. rewrite firstn_firstn. reflexivity.
Qed.

(** The two byte strings cut from an ASCII key have the sizes the cipher
    asks for. *)
Lemma key_and_iv_sizes (apiKey : jsstring) :
  48 <= len apiKey -> forallb ascii_unit (firstn 48 apiKey) = true ->
  utf8 (substring apiKey 0 32) = firstn 32 apiKey
  /\ utf8 (substring apiKey 32 48) = firstn 16 (skipn 32 apiKey)
  /\ len (firstn 32 apiKey) = 32
  /\ len (firstn 16 (skipn 32 apiKey)) = 16.
Proof.
  intros Hlen Hascii.
  destruct (firstn_skipn_firstn apiKey) as [Ek Ei].
  rewrite substring_key, substring_iv by assumption.
  split; [|split; [|split]].
  - apply utf8_ascii. rewrite <- Ek. now apply forallb_firstn.
  - apply utf8_ascii. rewrite <- Ei. now apply forallb_firstn, forallb_skipn.
  - unfold len in *. rewrite length_firstn. lia.
  - unfold len in *. rewrite length_firstn, length_skipn. lia.
Qed.

Lemma base64_app (k : nat) :
  forall a b : list byte, List.length a = (3 * k)%nat ->
    base64 (a ++ b) = base64 a ++ base64 b.
Proof.
  induction k as [|k IH]; intros a b Ha.
  - destruct a; [reflexivity | discriminate].
  - destruct a as [|x [|y [|z a]]]; cbn [List.length] in Ha; try lia.
    cbn [base64 app]. rewrite (IH a b) by lia. reflexivity.
Qed.

Lemma base64_char_class (i : Z) : base64_class (base64_char i) = true.
Proof.
  unfold base64_char, base64_class.
  assert (H : 0 <= Z.land i 63 < 64).
  { change 63 with (Z.ones 6). rewrite Z.land_ones by lia.
    apply Z.mod_pos_bound. reflexivity. }
  destruct (Z.ltb_spec (Z.land i 63) 26); [|
  destruct (Z.ltb_spec (Z.land i 63) 52); [|
  destruct (Z.ltb_spec (Z.land i 63) 62); [|
  destruct (Z.eqb_spec (Z.land i 63) 62)]]];
    repeat match goal with
           | |- context [?a <=? ?b] => destruct (Z.leb_spec a b); try lia
           end; try reflexivity.
Qed.

Lemma base64_class_all (n : nat) :
  forall bytes : list byte, (List.length bytes <= n)%nat ->
    forallb base64_class (base64 bytes) = true.
Proof.
  induction n as [|n IH]; intros bytes Hn.
  - destruct bytes; [reflexivity | cbn [List.length] in Hn; lia].
  - destruct bytes as [|x [|y [|z rest]]]; cbn [base64 forallb app];
      rewrite ?base64_char_class; cbn [andb]; try reflexivity.
    apply IH. cbn [List.length] in Hn. lia.
Qed.

Lemma base64_nonempty (bytes : list byte) : bytes <> [] -> falsy (base64 bytes) = false.
Proof.
  destruct bytes as [|x [|y [|z rest]]]; [congruence | reflexivity..].
Qed.

Lemma matches_base64_base64 (bytes : list byte) :
  bytes <> [] -> matches_base64 (base64 bytes) = true.
Proof.
  intros H. unfold matches_base64.
  rewrite (base64_nonempty bytes H), (base64_class_all (List.length bytes)) by lia.
  reflexivity.
Qed.

(** What [update] and [final] return, put together, is the base64 text of
    the whole ciphertext. *)
Lemma update_then_final (aes : aes_256_cbc) (key iv : list byte) (token : jsstring) :
  let cipher := {| Cipher.key := key; Cipher.iv := iv; Cipher.fed := []; Cipher.held := [] |} in
  snd (cipher_update aes cipher token) ++ cipher_final aes (fst (cipher_update aes cipher token))
  = base64 (aes key iv (utf8 token)).
Proof.
  cbv zeta. unfold cipher_update, cipher_final.
  cbn [Cipher.key Cipher.iv Cipher.fed Cipher.held fst snd app List.length].
  change (released 0) with 0%nat. cbn [skipn].
  set (ct := aes key iv (utf8 token)).
  set (r := released (List.length (utf8 token))).
  set (whole := (3 * (List.length (firstn r ct) / 3))%nat).
  rewrite <- (base64_app (List.length (firstn r ct) / 3)).
  - rewrite app_assoc, firstn_skipn, firstn_skipn. reflexivity.
  - rewrite length_firstn. subst whole.
    pose proof (Nat.Div0.mul_div_le (List.length (firstn r ct)) 3). lia.
Qed.

Lemma encryptAES_short_key (aes : aes_256_cbc) (token apiKey : jsstring) :
  len apiKey < 48 ->
  encryptAES aes token apiKey
  = Throw (str "API Key must be at least 48 characters for AES encryption").
Proof.
  intros H. unfold encryptAES.
  destruct (Z.ltb_spec (len apiKey) 48); [|lia].
  now rewrite orb_true_r.
Qed.

Lemma encryptAES_ascii_key (aes : aes_256_cbc) (token apiKey : jsstring) :
  48 <= len apiKey -> forallb ascii_unit (firstn 48 apiKey) = true ->
  encryptAES aes token apiKey
  = Normal (base64 (aes (firstn 32 apiKey) (firstn 16 (skipn 32 apiKey)) (utf8 token))).
Proof.
  intros Hlen Hascii. unfold encryptAES.
  assert (Hf : falsy apiKey = false).
  { destruct apiKey; [unfold len in Hlen; simpl in Hlen; lia | reflexivity]. }
  rewrite Hf. destruct (Z.ltb_spec (len apiKey) 48); [lia|]. cbn [orb].
  destruct (key_and_iv_sizes apiKey Hlen Hascii) as (-> & -> & Hk & Hi).
  unfold createCipheriv. rewrite Hk, Hi. cbn [Z.eqb Pos.eqb negb].
  pose proof (update_then_final aes (firstn 32 apiKey) (firstn 16 (skipn 32 apiKey)) token)
    as Huf. cbv zeta in Huf.
  destruct (cipher_update aes _ token) as [cipher encrypted].
  cbn [fst snd] in Huf. now rewrite Huf.
Qed.

(** A lone surrogate is encrypted as U+FFFD, the bytes EF BF BD. *)
Example utf8_lone_surrogate :
  utf8 [55296] = [239; 191; 189]
  /\ utf8 [97; 56320; 98] = [97; 239; 191; 189; 98]
  /\ utf8 [55357; 56832] = [240; 159; 152; 128].
Proof. repeat split. Qed.

(** A key whose first 32 characters take more than 32 bytes is refused by
    the cipher, whatever the block cipher is. *)
Lemma encryptAES_accented_key (aes : aes_256_cbc) (token : jsstring) :
  encryptAES aes token accented_key
  = Throw (str "AES encryption failed: RangeError: Invalid key length").
Proof. reflexivity. Qed.

(** C7, as the code has it.  For every token, key material shorter than
    48 characters is refused with the error that says so.  Key material
    of 48 characters, or more, whose first 48 characters are ASCII is
    accepted: the bytes of the first 32 characters are the AES-256 key,
    those of the next 16 the CBC initialization vector, and the result is
    the base64 text of the ciphertext of the token's UTF-8 bytes, which
    matches [^[A-Za-z0-9+/=]+$] because a padded ciphertext is never
    empty. *)
Theorem encryptAES_key_material (aes : aes_256_cbc) (token apiKey : jsstring)
    (Hpadded : forall key iv plaintext, aes key iv plaintext <> []) :
  (len apiKey < 48 ->
   encryptAES aes token apiKey
   = Throw (str "API Key must be at least 48 characters for AES encryption"))
  /\ (48 <= len apiKey -> forallb ascii_unit (firstn 48 apiKey) = true ->
      exists encrypted,
        encryptAES aes token apiKey = Normal encrypted
        /\ encrypted
           = base64 (aes (utf8 (substring apiKey 0 32)) (utf8 (substring apiKey 32 48))
                         (utf8 token))
        /\ len_of (utf8 (substring apiKey 0 32)) = 32
        /\ len_of (utf8 (substring apiKey 32 48)) = 16
        /\ matches_base64 encrypted = true).
Proof.
  split; [apply encryptAES_short_key|].
  intros Hlen Hascii.
  destruct (key_and_iv_sizes apiKey Hlen Hascii) as (Ek & Ei & Hk & Hi).
  eexists. split; [now apply encryptAES_ascii_key|].
  rewrite Ek, Ei. repeat split; try assumption.
  apply matches_base64_base64, Hpadded.
Qed.

Lemma encryptAES_key_material_witness :
  (forall key iv plaintext, toy_cipher key iv plaintext <> [])
  /\ encryptAES toy_cipher (str "token") (List.repeat 97 47)
     = Throw (str "API Key must be at least 48 characters for AES encryption")
  /\ exists encrypted,
       encryptAES toy_cipher (str "test-token") validApiKey = Normal encrypted
       /\ matches_base64 encrypted = true.
Proof.
  assert (Hpadded : forall key iv plaintext, toy_cipher key iv plaintext <> []).
  { intros key iv plaintext. unfold toy_cipher. destruct plaintext; discriminate. }
  split; [exact Hpadded|]. split.
  - apply (encryptAES_key_material toy_cipher (str "token") (List.repeat 97 47) Hpadded).
    vm_compute. reflexivity.
  - destruct (encryptAES_key_material toy_cipher (str "test-token") validApiKey Hpadded)
      as (_ & Hok).
    destruct Hok as (encrypted & Henc & _ & _ & _ & Hmatch).
    + vm_compute. discriminate.
    + vm_compute. reflexivity.
    + exists encrypted. split; assumption.
Defined.

(** C7 fails as stated: a key of exactly 48 characters is refused when
    one of its first 32 characters is not ASCII, because the key is cut by
    characters and handed to the cipher as UTF-8 bytes. *)
Lemma encryptAES_48_characters_refused :
  len accented_key = 48
  /\ len_of (utf8 (substring accented_key 0 32)) = 33
  /\ (exists error,
        encryptAES toy_cipher (str "token") accented_key
        = Throw (str "AES encryption failed: " ++ error))
  /\ (forall encrypted,
        encryptAES toy_cipher (str "token") accented_key <> Normal encrypted).
Proof.
  split; [reflexivity|]. split; [reflexivity|]. split.
  - exists (str "RangeError: Invalid key length"). reflexivity.
  - intros encrypted. rewrite encryptAES_accented_key. discriminate.
Qed.

(** ** Batch chunking *)

Section Chunking.
Context {A : Type}.
Implicit Types (contracts : list A) (i : Z) (fuel : nat).

Lemma slice_window contracts i :
  0 <= i < len_of contracts ->
  slice contracts i (i + chunkSize)
  = firstn (Z.to_nat (Z.min chunkSize (len_of contracts - i)))
           (skipn (Z.to_nat i) contracts).
Proof.
  intros Hi. unfold slice, chunkSize in *.
  destruct (Z.ltb_spec i 0); [lia|].
  destruct (Z.ltb_spec (i + 100) 0); [lia|].
  f_equal; [|f_equal]; lia.
Qed.

Lemma len_slice contracts i :
  0 <= i < len_of contracts ->
  len_of (slice contracts i (i + chunkSize)) = Z.min chunkSize (len_of contracts - i).
Proof.
  intros Hi. rewrite slice_window by assumption.
  unfold len_of, chunkSize in *. rewrite length_firstn, length_skipn. lia.
Qed.

(** The loop asks [send] for each slice in turn and stops at the first
    failure. *)
Lemma loop_sends_slices {R : Type} (send : list A -> completion R) fuel :
  forall contracts i (results : list R),
    batchSendContracts_loop send fuel contracts i results
    = match send_all send (slices_from fuel contracts i) with
      | Normal rs => Normal (results ++ rs)
      | Throw error => Throw error
      end.
Proof.
  induction fuel as [|fuel IH]; intros contracts i results;
    cbn [batchSendContracts_loop slices_from send_all].
  - now rewrite app_nil_r.
  - destruct (i <? len_of contracts); cbn [send_all].
    + destruct (send (slice contracts i (i + chunkSize))) as [r|e]; [|reflexivity].
      rewrite IH.
      destruct (send_all send (slices_from fuel contracts (i + chunkSize)));
        [now rewrite <- app_assoc | reflexivity].
    + now rewrite app_nil_r.
Qed.

Lemma send_all_echo (slices : list (list A)) :
  send_all (fun chunk => Normal chunk) slices = Normal slices.
Proof. induction slices as [|s rest IH]; cbn [send_all]; [|rewrite IH]; reflexivity. Qed.

Lemma chunks_slices contracts :
  chunks contracts = slices_from (S (List.length contracts)) contracts 0.
Proof.
  unfold chunks, batchSendContracts.
  now rewrite loop_sends_slices, send_all_echo.
Qed.

(** With enough fuel the slices from [i] on make up the rest of the list. *)
Lemma concat_slices_from fuel :
  forall contracts i, 0 <= i -> len_of contracts - i < Z.of_nat fuel ->
    List.concat (slices_from fuel contracts i) = skipn (Z.to_nat i) contracts.
Proof.
  induction fuel as [|fuel IH]; intros contracts i Hi Hfuel; cbn [slices_from].
  - rewrite skipn_all2; [reflexivity | unfold len_of in *; lia].
  - destruct (Z.ltb_spec i (len_of contracts)) as [Hlt|Hge].
    + cbn [List.concat]. rewrite IH by (unfold chunkSize; lia).
      rewrite slice_window by lia.
      set (m := Z.to_nat (Z.min chunkSize (len_of contracts - i))).
      replace (skipn (Z.to_nat (i + chunkSize)) contracts)
        with (skipn m (skipn (Z.to_nat i) contracts)).
      * apply firstn_skipn.
      * rewrite skipn_skipn. subst m. unfold chunkSize, len_of in *.
        destruct (Z.le_gt_cases 100 (Z.of_nat (List.length contracts) - i)).
        -- f_equal. lia.
        -- rewrite !skipn_all2 by lia. reflexivity.
    + cbn [List.concat]. rewrite skipn_all2; [reflexivity | unfold len_of in *; lia].
Qed.

Lemma slices_from_sizes fuel :
  forall contracts i, 0 <= i ->
    Forall (fun s => 1 <= len_of s <= chunkSize) (slices_from fuel contracts i).
Proof.
  induction fuel as [|fuel IH]; intros contracts i Hi; cbn [slices_from]; [constructor|].
  destruct (Z.ltb_spec i (len_of contracts)); [|constructor].
  constructor; [|apply IH; unfold chunkSize; lia].
  rewrite len_slice by lia. unfold chunkSize. lia.
Qed.

Lemma slices_from_full fuel :
  forall contracts i, 0 <= i ->
    Forall (fun s => len_of s = chunkSize) (removelast (slices_from fuel contracts i)).
Proof.
  induction fuel as [|fuel IH]; intros contracts i Hi; cbn [slices_from]; [constructor|].
  destruct (Z.ltb_spec i (len_of contracts)); [|constructor].
  specialize (IH contracts (i + chunkSize) ltac:(unfold chunkSize; lia)).
  destruct fuel as [|fuel]; [constructor|].
  cbn [slices_from] in *.
  destruct (Z.ltb_spec (i + chunkSize) (len_of contracts)) as [Hnext|Hlast];
    [|constructor].
  cbn [removelast] in *.
  constructor; [|exact IH].
  rewrite len_slice by lia. unfold chunkSize in *. lia.
Qed.
End Chunking.

(** The sizes of the slices depend on the number of contracts only. *)
Lemma slices_from_sizes_by_length {A B : Type} (fuel : nat) :
  forall (contracts : list A) (others : list B) (i : Z), 0 <= i ->
    List.length contracts = List.length others ->
    List.map len_of (slices_from fuel contracts i)
    = List.map len_of (slices_from fuel others i).
Proof.
  induction fuel as [|fuel IH]; intros contracts others i Hi Hlen;
    cbn [slices_from]; [reflexivity|].
  assert (Hn : len_of contracts = len_of others) by (unfold len_of; now rewrite Hlen).
  rewrite <- Hn.
  destruct (Z.ltb_spec i (len_of contracts)); [|reflexivity].
  cbn [List.map].
  rewrite (IH contracts others) by (assumption || (unfold chunkSize; lia)).
  rewrite (len_slice contracts), (len_slice others) by lia.
  now rewrite Hn.
Qed.

(** C8.  [batchSendContracts] sends the contracts in slices of 100 taken in
    order: put end to end the slices are the list, none is empty or longer
    than 100, all but the last hold exactly 100, and 250 contracts go out
    as 100, 100 and 50. *)
Theorem chunks_partition {A : Type} (contracts : list A) :
  List.concat (chunks contracts) = contracts
  /\ Forall (fun s => 1 <= len_of s <= 100) (chunks contracts)
  /\ Forall (fun s => len_of s = 100) (removelast (chunks contracts))
  /\ (forall (R : Type) (send : list A -> completion R),
        batchSendContracts send contracts = send_all send (chunks contracts))
  /\ (List.length contracts = 250%nat ->
      List.map len_of (chunks contracts) = [100; 100; 50])
  /\ List.map len_of (chunks (List.seq 1 250)) = [100; 100; 50].
Proof.
  rewrite chunks_slices.
  split; [|split; [|split; [|split; [|split]]]].
  - rewrite concat_slices_from by (unfold len_of; lia). reflexivity.
  - apply (slices_from_sizes (S (List.length contracts)) contracts 0). lia.
  - apply (slices_from_full (S (List.length contracts)) contracts 0). lia.
  - intros R send. unfold batchSendContracts. rewrite loop_sends_slices.
    destruct (send_all send _); [reflexivity | reflexivity].
  - intros H250.
    rewrite (slices_from_sizes_by_length _ contracts (List.repeat tt 250) 0)
      by (rewrite ?repeat_length; lia).
    rewrite H250. vm_compute. reflexivity.
  - vm_compute. reflexivity.
Qed.

Lemma chunks_partition_witness :
  List.length (List.seq 1 250) = 250%nat
  /\ List.map len_of (chunks (List.seq 1 250)) = [100; 100; 50]
  /\ List.concat (chunks (List.seq 1 250)) = List.seq 1 250.
Proof.
  destruct (chunks_partition (List.seq 1 250)) as (Hconcat & _ & _ & _ & H250 & _).
  split; [reflexivity|]. split; [apply H250; reflexivity | exact Hconcat].
Defined.

(** ** Token cache *)

Lemma outstanding_call_miss (zone : TimeZone.t) (parse : jsstring -> number)
    (w : World) (caller : nat) (now : Z) :
  cached (client w) now = None ->
  outstanding (step zone parse w (Call caller now)) = S (outstanding w)
  /\ client (step zone parse w (Call caller now)) = client w.
Proof.
  intros Hmiss. cbn [step]. unfold getToken. rewrite Hmiss.
  unfold outstanding. cbn [pending client].
  rewrite filter_app, length_app. cbn. split; [lia | reflexivity].
Qed.

Lemma outstanding_call_hit (zone : TimeZone.t) (parse : jsstring -> number)
    (w : World) (caller : nat) (now : Z) (tok : jsstring) :
  cached (client w) now = Some tok ->
  outstanding (step zone parse w (Call caller now)) = outstanding w
  /\ settled (step zone parse w (Call caller now)) = settled w ++ [(caller, Normal tok)].
Proof. intros Hhit. cbn [step]. unfold getToken. rewrite Hhit. split; reflexivity. Qed.

Lemma outstanding_calls_miss (zone : TimeZone.t) (parse : jsstring -> number)
    (who : list (nat * Z)) :
  forall w, (forall p, In p who -> cached (client w) (snd p) = None) ->
    outstanding (run zone parse w (calls who)) = (outstanding w + List.length who)%nat.
Proof.
  induction who as [|p who IH]; intros w Hmiss; cbn [calls List.map run fold_left List.length].
  - lia.
  - destruct (outstanding_call_miss zone parse w (fst p) (snd p)) as [Hout Hclient].
    { apply Hmiss. now left. }
    fold (calls who). fold (run zone parse (step zone parse w (Call (fst p) (snd p))) (calls who)).
    rewrite IH.
    + rewrite Hout. lia.
    + intros q Hq. rewrite Hclient. apply Hmiss. now right.
Qed.

(** Once the answer is stored, a call before the expiry is served from the
    cache and sends nothing. *)
Example getToken_cached_after_answer :
  let w := run utc (parse_fixed (Int 1000000)) fresh
               [Call 1 0; Response 1 true (str "OK"); Body 1 sample_answer; Call 2 500] in
  outstanding w = 0%nat
  /\ settled w = [(1%nat, Normal (str "abc")); (2%nat, Normal (str "abc"))]
  /\ Client.tokenExpiry (client w) = Some (Int 700000).
Proof. repeat split. Qed.

(** C9, as the code has it.  [getToken] keeps no record of a refresh in
    flight: every call that finds no valid cached token sends a credential
    exchange of its own, so calls made while none has been answered leave
    as many exchanges outstanding as there were calls; a call that finds a
    valid cached token sends none and returns it. *)
Theorem getToken_one_exchange_per_miss
    (zone : TimeZone.t) (parse : jsstring -> number) (w : World) (who : list (nat * Z))
    (Hmiss : forall p, In p who -> cached (client w) (snd p) = None) :
  outstanding (run zone parse w (calls who)) = (outstanding w + List.length who)%nat
  /\ (forall caller now tok,
        cached (client w) now = Some tok ->
        outstanding (getToken w caller now) = outstanding w
        /\ settled (getToken w caller now) = settled w ++ [(caller, Normal tok)]).
Proof.
  split.
  - now apply outstanding_calls_miss.
  - intros caller now tok. apply (outstanding_call_hit zone parse).
Qed.

Lemma getToken_one_exchange_per_miss_witness :
  (forall p, In p [(1%nat, 0); (2%nat, 0); (3%nat, 1)] -> cached (client fresh) (snd p) = None)
  /\ outstanding (run utc (parse_fixed NaN) fresh (calls [(1%nat, 0); (2%nat, 0); (3%nat, 1)]))
     = 3%nat.
Proof.
  assert (Hmiss : forall p, In p [(1%nat, 0); (2%nat, 0); (3%nat, 1)] ->
                            cached (client fresh) (snd p) = None)
    by (intros p _; reflexivity).
  split; [exact Hmiss|].
  apply (getToken_one_exchange_per_miss utc (parse_fixed NaN) fresh
           [(1%nat, 0); (2%nat, 0); (3%nat, 1)] Hmiss).
Defined.

(** C9 fails as stated: two calls of [getToken] on a fresh client, the
    second made before the first is answered, leave two credential
    exchanges outstanding. *)
Lemma getToken_two_exchanges_outstanding :
  cached (client fresh) 0 = None
  /\ outstanding (run utc (parse_fixed NaN) fresh [Call 1 0; Call 2 0]) = 2%nat
  /\ pending (run utc (parse_fixed NaN) fresh [Call 1 0; Call 2 0])
     = [(1%nat, AwaitFetch); (2%nat, AwaitFetch)].
Proof. repeat split. Qed.

(** * Further properties of the code *)

(** ** Field codec: what [padString] keeps *)

Lemma padEnd_fixpoint (s fill : jsstring) (w : Z) :
  w <= len s -> padEnd s w fill = s.
Proof. intros H. unfold padEnd. destruct (Z.leb_spec w (len s)); [reflexivity | lia]. Qed.

Lemma len_padString_cases (value : jsstring) (w : Z) (fill : option jsstring) :
  0 <= w ->
  len (padString value w fill) = w
  \/ (padString value w fill = value /\ len value < w
      /\ falsy (match fill with Some f => f | None => str " " end) = true).
Proof.
  intros Hw.
  destruct (falsy (match fill with Some f => f | None => str " " end)) eqn:Hf.
  - destruct (Z.lt_ge_cases (len value) w) as [Hshort|Hlong].
    + right. split; [|split; [assumption | reflexivity]].
      unfold padString, padEnd. rewrite Hf.
      destruct (Z.ltb_spec w (len value)); [lia|].
      destruct (Z.leb_spec w (len value)); reflexivity.
    + left. unfold padString.
      destruct (Z.ltb_spec w (len value)).
      * rewrite substring_prefix by assumption.
        unfold len in *. rewrite length_firstn. lia.
      * rewrite padEnd_fixpoint by lia. lia.
  - left. now apply len_padString.
Qed.

Lemma padString_negative_width (value : jsstring) (w : Z) (fill : option jsstring) :
  w < 0 -> padString value w fill = [].
Proof.
  intros Hw. pose proof (len_nonneg value).
  rewrite padString_truncates by lia.
  now replace (Z.to_nat w) with 0%nat by lia.
Qed.

(** X1.  Padding twice is padding once, and only the first [width]
    characters of the value count: a value and its first [width] characters
    give the same field, of which they are the beginning. *)
Theorem padString_idempotent (value : jsstring) (width : Z) (fill : option jsstring) :
  padString (padString value width fill) width fill = padString value width fill
  /\ padString (firstn (Z.to_nat width) value) width fill = padString value width fill
  /\ firstn (Z.to_nat (Z.min width (len value))) (padString value width fill)
     = firstn (Z.to_nat width) value.
Proof.
  pose proof (len_nonneg value) as Hv.
  destruct (Z.lt_ge_cases width 0) as [Hneg|Hw].
  - rewrite !padString_negative_width by assumption.
    replace (Z.to_nat width) with 0%nat by lia.
    replace (Z.to_nat (Z.min width (len value))) with 0%nat by lia.
    repeat split; reflexivity.
  - split; [|split].
    + destruct (len_padString_cases value width fill Hw) as [Hlen|(Hsame & _)].
      * unfold padString at 1.
        destruct (Z.ltb_spec width (len (padString value width fill))); [lia|].
        apply padEnd_fixpoint. lia.
      * now rewrite Hsame.
    + destruct (Z.lt_ge_cases width (len value)) as [Hlong|Hshort].
      * rewrite (padString_truncates value) by assumption.
        unfold padString.
        assert (Hl : len (firstn (Z.to_nat width) value) = width).
        { unfold len in *. rewrite length_firstn. lia. }
        rewrite Hl. destruct (Z.ltb_spec width width); [lia|].
        apply padEnd_fixpoint. lia.
      * rewrite firstn_all2 by (unfold len in *; lia). reflexivity.
    + destruct (Z.lt_ge_cases width (len value)) as [Hlong|Hshort].
      * rewrite padString_truncates by assumption.
        replace (Z.min width (len value)) with width by lia.
        rewrite firstn_firstn. f_equal. lia.
      * replace (Z.min width (len value)) with (len value) by lia.
        rewrite (firstn_all2 (n := Z.to_nat width)) by (unfold len in *; lia).
        unfold padString, padEnd.
        destruct (Z.ltb_spec width (len value)); [lia|].
        destruct (Z.leb_spec width (len value));
          [|destruct (falsy _)];
          try (unfold len; rewrite Nat2Z.id; apply firstn_all).
        unfold len. rewrite Nat2Z.id.
        rewrite firstn_app, firstn_all, Nat.sub_diag. cbn [firstn]. apply app_nil_r.
Qed.

(** X2.  For a width that is not negative the field has exactly [width]
    characters unless the fill string is empty and the value is shorter:
    then the value comes back unpadded.  A negative width gives the empty
    string. *)
Theorem padString_width_iff (value fill : jsstring) (width : Z) :
  (0 <= width ->
   (len (padString value width (Some fill)) = width <-> (fill <> [] \/ width <= len value)))
  /\ (0 <= width -> fill = [] -> len value < width ->
      padString value width (Some fill) = value)
  /\ (width < 0 -> padString value width (Some fill) = []).
Proof.
  split; [|split].
  - intros Hw. destruct (len_padString_cases value width (Some fill) Hw)
      as [Hlen|(Hsame & Hshort & Hf)].
    + split; [|intros _; exact Hlen].
      intros _. destruct fill as [|c fill]; [|left; discriminate].
      right. destruct (Z.lt_ge_cases (len value) width) as [Hshort|]; [|lia].
      exfalso. unfold padString, padEnd in Hlen.
      destruct (Z.ltb_spec width (len value)); [lia|].
      destruct (Z.leb_spec width (len value)); [lia|].
      cbn [falsy] in Hlen. lia.
    + rewrite Hsame. split; [lia|].
      intros [Hfill|Hfit]; [|lia].
      destruct fill; [congruence | discriminate].
  - intros Hw -> Hshort.
    destruct (len_padString_cases value width (Some []) Hw) as [Hlen|(Hsame & _)];
      [|exact Hsame].
    unfold padString, padEnd in *.
    destruct (Z.ltb_spec width (len value)); [lia|].
    destruct (Z.leb_spec width (len value)); reflexivity.
  - apply padString_negative_width.
Qed.

Lemma padString_width_iff_witness :
  len (padString (str "ab") 5 (Some (str "xyz"))) = 5
  /\ padString (str "ab") 5 (Some []) = str "ab"
  /\ padString (str "ab") (-1) (Some (str "x")) = [].
Proof.
  destruct (padString_width_iff (str "ab") (str "xyz") 5) as (Hiff & _ & _).
  destruct (padString_width_iff (str "ab") [] 5) as (_ & Hempty & _).
  destruct (padString_width_iff (str "ab") (str "x") (-1)) as (_ & _ & Hneg).
  split; [|split].
  - apply Hiff; [lia|]. left. discriminate.
  - apply Hempty; [lia | reflexivity | vm_compute; reflexivity].
  - apply Hneg. lia.
Defined.

(** ** Field codec: reading numbers and dates back *)

Lemma decimal_value_leading_zeros (k : nat) (s : jsstring) :
  decimal_value (List.repeat 48 k ++ s) = decimal_value s.
Proof.
  unfold decimal_value. rewrite fold_left_app.
  assert (E : fold_left (fun acc c => 10 * acc + (c - 48)) (List.repeat 48 k) 0 = 0).
  { induction k as [|k IH]; [reflexivity|]. cbn [List.repeat fold_left].
    replace (10 * 0 + (48 - 48)) with 0 by lia. exact IH. }
  now rewrite E.
Qed.

Lemma padStart_zeros (s : jsstring) (w : Z) :
  padStart s w (str "0") = List.repeat 48 (Z.to_nat (w - len s)) ++ s.
Proof.
  unfold padStart. destruct (Z.leb_spec w (len s)).
  - now replace (Z.to_nat (w - len s)) with 0%nat by lia.
  - change (str "0") with ([48] : jsstring). cbn [falsy].
    now rewrite truncatedStringFiller_single.
Qed.

Lemma forallb_repeat {A : Type} (p : A -> bool) (a : A) (k : nat) :
  p a = true -> forallb p (List.repeat a k) = true.
Proof. intros Ha. induction k as [|k IH]; cbn [List.repeat forallb]; [|rewrite Ha, IH]; reflexivity. Qed.

(** X3.  A code that is a non-negative safe integer is written in decimal
    digits only and can be read back from its field, whatever the width:
    the zeros in front do not change its value and an overflowing code
    keeps all its digits.  Two such codes never share a field. *)
Theorem padNumber_reads_back (z width : Z) (Hz : 0 <= z <= MAX_SAFE_INTEGER) :
  forallb is_digit (padNumber (Int z) width) = true
  /\ decimal_value (padNumber (Int z) width) = z
  /\ (forall z', 0 <= z' <= MAX_SAFE_INTEGER ->
        padNumber (Int z') width = padNumber (Int z) width -> z' = z).
Proof.
  assert (Hread : forall n, 0 <= n -> decimal_value (padNumber (Int n) width) = n).
  { intros n Hn. unfold padNumber. rewrite padStart_zeros, decimal_value_leading_zeros.
    cbn [String_]. destruct (Z.ltb_spec n 0); [lia|]. now apply digits_value. }
  split; [|split].
  - unfold padNumber. rewrite padStart_zeros, forallb_app.
    rewrite forallb_repeat by reflexivity.
    cbn [String_]. destruct (Z.ltb_spec z 0); [lia|].
    unfold digits. now rewrite digits_fuel_are_digits by lia.
  - apply Hread. lia.
  - intros z' Hz' E. rewrite <- (Hread z'), <- (Hread z) by lia. now rewrite E.
Qed.

Lemma padNumber_reads_back_witness :
  0 <= 412058091 <= MAX_SAFE_INTEGER
  /\ decimal_value (padNumber (Int 412058091) 9) = 412058091
  /\ decimal_value (padNumber (Int 42) 9) = 42.
Proof.
  assert (H1 : 0 <= 412058091 <= MAX_SAFE_INTEGER) by (unfold MAX_SAFE_INTEGER; lia).
  assert (H2 : 0 <= 42 <= MAX_SAFE_INTEGER) by (unfold MAX_SAFE_INTEGER; lia).
  split; [exact H1|]. split.
  - exact (proj1 (proj2 (padNumber_reads_back 412058091 9 H1))).
  - exact (proj1 (proj2 (padNumber_reads_back 42 9 H2))).
Defined.

Lemma digits_fuel_enough (fuel : nat) :
  forall (fuel' : nat) (n : Z), 0 <= n ->
    Z.log2 n < Z.of_nat fuel -> Z.log2 n < Z.of_nat fuel' ->
    digits_fuel fuel n = digits_fuel fuel' n.
Proof.
  induction fuel as [|fuel IH]; intros fuel' n Hn Hf Hf'.
  - pose proof (Z.log2_nonneg n). lia.
  - destruct fuel' as [|fuel']; [pose proof (Z.log2_nonneg n); lia|].
    cbn [digits_fuel]. destruct (Z.ltb_spec n 10); [reflexivity|].
    pose proof (log2_tenth n ltac:(assumption)).
    rewrite (IH fuel' (n / 10)); [reflexivity | apply Z.div_pos; lia | lia | lia].
Qed.

Lemma digits_one (n : Z) : 0 <= n < 10 -> digits n = [48 + n].
Proof.
  intros Hn. unfold digits. cbn [digits_fuel].
  destruct (Z.ltb_spec n 10); [reflexivity | lia].
Qed.

Lemma digits_more (n : Z) :
  10 <= n -> digits n = digits (n / 10) ++ [48 + n mod 10].
Proof.
  intros Hn. unfold digits at 1. cbn [digits_fuel].
  destruct (Z.ltb_spec n 10); [lia|].
  unfold digit_char. f_equal. unfold digits.
  pose proof (log2_tenth n Hn). pose proof (Z.log2_nonneg (n / 10)).
  apply digits_fuel_enough; [apply Z.div_pos; lia | lia | lia].
Qed.

Lemma two_digits (n : Z) :
  0 <= n <= 99 ->
  padStart (String_ (Int n)) 2 (str "0") = [48 + n / 10; 48 + n mod 10].
Proof.
  intros Hn. rewrite padStart_zeros. cbn [String_].
  destruct (Z.ltb_spec n 0); [lia|].
  destruct (Z.lt_ge_cases n 10).
  - rewrite digits_one by lia. rewrite Z.div_small, Z.mod_small by lia. reflexivity.
  - rewrite digits_more by lia.
    assert (0 <= n / 10 < 10)
      by (split; [apply Z.div_pos; lia | apply Z.div_lt_upper_bound; lia]).
    rewrite digits_one by lia. reflexivity.
Qed.

Lemma four_digits (y : Z) :
  1000 <= y <= 9999 ->
  String_ (Int y)
  = [48 + y / 1000; 48 + (y / 100) mod 10; 48 + (y / 10) mod 10; 48 + y mod 10].
Proof.
  intros Hy. cbn [String_]. destruct (Z.ltb_spec y 0); [lia|].
  assert (H1 : 100 <= y / 10 < 1000)
    by (split; [apply Z.div_le_lower_bound; lia | apply Z.div_lt_upper_bound; lia]).
  assert (H2 : 10 <= y / 10 / 10 < 100)
    by (split; [apply Z.div_le_lower_bound; lia | apply Z.div_lt_upper_bound; lia]).
  assert (H3 : 0 <= y / 10 / 10 / 10 < 10)
    by (split; [apply Z.div_pos; lia | apply Z.div_lt_upper_bound; lia]).
  rewrite (digits_more y), (digits_more (y / 10)), (digits_more (y / 10 / 10)) by lia.
  rewrite digits_one by lia.
  rewrite !Z.div_div by lia. reflexivity.
Qed.

Lemma decimal_value_two (a b : Z) : decimal_value [48 + a; 48 + b] = 10 * a + b.
Proof. unfold decimal_value. cbn [fold_left]. lia. Qed.

Lemma two_digits_value (n : Z) : decimal_value [48 + n / 10; 48 + n mod 10] = n.
Proof. rewrite decimal_value_two. pose proof (Z.div_mod n 10). lia. Qed.

Lemma four_digits_value (y : Z) :
  decimal_value [48 + y / 1000; 48 + (y / 100) mod 10; 48 + (y / 10) mod 10; 48 + y mod 10]
  = y.
Proof.
  unfold decimal_value. cbn [fold_left].
  pose proof (Z.div_mod y 10 ltac:(lia)) as E1.
  pose proof (Z.div_mod (y / 10) 10 ltac:(lia)) as E2.
  pose proof (Z.div_mod (y / 10 / 10) 10 ltac:(lia)) as E3.
  rewrite !Z.div_div in * by lia.
  change (10 * 10) with 100 in *. change (100 * 10) with 1000 in *. lia.
Qed.

(** X4.  A valid date with a year of four digits is printed as the 16
    characters DD/MM/YYYY HH:MM (the first 10 alone without the time), the
    month counted from 1, and every calendar field can be read back from
    its columns. *)
Theorem formatDate_reads_back (f : Date.fields)
    (Hcalendar : calendar_four_digit_year f = true) :
  let s := formatDate (Date.Valid f) true in
  len s = 16
  /\ formatDate (Date.Valid f) false = substring s 0 10
  /\ decimal_value (substring s 0 2) = Date.date f
  /\ decimal_value (substring s 3 5) = Date.month f + 1
  /\ decimal_value (substring s 6 10) = Date.fullYear f
  /\ decimal_value (substring s 11 13) = Date.hours f
  /\ decimal_value (substring s 14 16) = Date.minutes f
  /\ substring s 2 3 = str "/" /\ substring s 5 6 = str "/"
  /\ substring s 10 11 = str " " /\ substring s 13 14 = str ":".
Proof.
  unfold calendar_four_digit_year in Hcalendar.
  repeat (apply andb_prop in Hcalendar; destruct Hcalendar as [Hcalendar ?]).
  repeat match goal with
         | H : (_ <=? _) = true |- _ => apply Z.leb_le in H
         end.
  cbv zeta. unfold formatDate.
  cbn [Date.getDate Date.getMonth Date.getFullYear Date.getHours Date.getMinutes
       Date.get succ_number].
  rewrite !two_digits, four_digits by lia.
  change (str "/") with ([47] : jsstring). change (str " ") with ([32] : jsstring).
  change (str ":") with ([58] : jsstring).
  cbn [app].
  repeat split;
    try (cbv [substring clamp len]; cbn [List.length Z.of_nat]; cbv [Z.to_nat Pos.to_nat
           Pos.iter_op Nat.add Z.min Z.max Z.compare Pos.compare Pos.compare_cont Z.sub
           Z.add Z.opp Z.pos_sub Z.succ_double Z.pred_double Z.double Pos.pred_double
           Pos.of_succ_nat Pos.succ CompOpp]; cbn [firstn skipn]);
    try reflexivity;
    try apply two_digits_value; try apply four_digits_value.
Qed.

Lemma formatDate_reads_back_witness :
  calendar_four_digit_year
    {| Date.date := 15; Date.month := 0; Date.fullYear := 2024;
       Date.hours := 9; Date.minutes := 5 |} = true
  /\ decimal_value (substring (formatDate (date_showing 2024 0 15 9 5) true) 3 5) = 1.
Proof.
  split; [reflexivity|].
  destruct (formatDate_reads_back
              {| Date.date := 15; Date.month := 0; Date.fullYear := 2024;
                 Date.hours := 9; Date.minutes := 5 |} eq_refl)
    as (_ & _ & _ & Hmonth & _).
  exact Hmonth.
Defined.

(** ** Record layout *)

Lemma substring_window (s : jsstring) (lo hi : Z) :
  0 <= lo <= hi ->
  substring s lo hi = firstn (Z.to_nat (hi - lo)) (skipn (Z.to_nat lo) s).
Proof.
  intros H. pose proof (len_nonneg s) as Hs. unfold substring, clamp.
  replace (Z.max lo 0) with lo by lia. replace (Z.max hi 0) with hi by lia.
  replace (Z.min (Z.min lo (len s)) (Z.min hi (len s))) with (Z.min lo (len s)) by lia.
  replace (Z.max (Z.min lo (len s)) (Z.min hi (len s))) with (Z.min hi (len s)) by lia.
  unfold len in *.
  destruct (Z.le_gt_cases hi (Z.of_nat (List.length s))) as [Hhi|Hhi].
  - repeat f_equal; lia.
  - destruct (Z.le_gt_cases lo (Z.of_nat (List.length s))) as [Hlo|Hlo].
    + replace (Z.min lo (Z.of_nat (List.length s))) with lo by lia.
      rewrite !firstn_all2; [reflexivity | rewrite length_skipn; lia..].
    + rewrite !skipn_all2 by lia. now rewrite !firstn_nil.
Qed.
Lemma substring_shift (a x : jsstring) (lo hi : Z) :
  0 <= lo <= hi -> substring (a ++ x) (len a + lo) (len a + hi) = substring x lo hi.
Proof.
  intros H. pose proof (len_nonneg a).
  rewrite !substring_window by lia. unfold len in *.
  rewrite skipn_app, (skipn_all2 a) by lia. cbn [app].
  replace (Z.to_nat (Z.of_nat (List.length a) + hi - (Z.of_nat (List.length a) + lo)))
    with (Z.to_nat (hi - lo)) by lia.
  replace (Z.to_nat (Z.of_nat (List.length a) + lo) - List.length a)%nat
    with (Z.to_nat lo) by lia.
  reflexivity.
Qed.

Lemma column_step (ws : list Z) (i : nat) (w : Z) :
  nth_error ws i = Some w -> column ws (S i) = column ws i + w.
Proof.
  unfold column. revert i. induction ws as [|v ws IH]; intros [|i] H;
    cbn [nth_error] in H; try discriminate.
  - injection H as ->. cbn [firstn fold_right]. lia.
  - cbn [firstn fold_right] in *. rewrite (IH i H). lia.
Qed.

Lemma column_nonneg (fs : list jsstring) (i : nat) : 0 <= column (List.map len fs) i.
Proof.
  unfold column. revert i. induction fs as [|f fs IH]; intros [|i];
    cbn [List.map firstn fold_right]; try lia.
  pose proof (len_nonneg f). specialize (IH i). lia.
Qed.

(** The field of index [i] of a concatenation sits between its column and
    the next. *)
Lemma field_of_concat (fs : list jsstring) :
  forall (i : nat) (f : jsstring), nth_error fs i = Some f ->
    substring (List.concat fs) (column (List.map len fs) i) (column (List.map len fs) (S i))
    = f.
Proof.
  induction fs as [|g fs IH]; intros [|i] f H; cbn [nth_error] in H; try discriminate.
  - injection H as ->. unfold column. cbn [List.map firstn fold_right List.concat].
    pose proof (len_nonneg f).
    rewrite substring_window by lia. unfold len in *.
    replace (Z.to_nat (Z.of_nat (List.length f) + 0 - 0)) with (List.length f) by lia.
    change (Z.to_nat 0) with 0%nat. cbn [skipn].
    rewrite firstn_app, firstn_all, Nat.sub_diag. cbn [firstn]. apply app_nil_r.
  - cbn [List.concat List.map].
    assert (Hc : forall k, column (len g :: List.map len fs) (S k)
                           = len g + column (List.map len fs) k) by reflexivity.
    rewrite !Hc. rewrite substring_shift; [now apply IH|].
    pose proof (column_nonneg fs i).
    assert (Hw : nth_error (List.map len fs) i = Some (len f))
      by (now rewrite nth_error_map, H).
    rewrite (column_step _ i (len f) Hw). pose proof (len_nonneg f). lia.
Qed.

Lemma driver_fits_bounds (d : Driver.t) :
  driver_fits d = true ->
  len (formatDate (Driver.birthDate d) false) <= 10
  /\ len (String_ (Location.code (Driver.birthPlace d))) <= 9
  /\ len (String_ (Location.code (Driver.citizenship d))) <= 9
  /\ match Driver.residencePlace d with
     | Some p => len (String_ (Location.code p)) <= 9
     | None => True
     end
  /\ len (String_ (Location.code (Driver.documentIssuePlace d))) <= 9
  /\ len (String_ (Location.code (Driver.licenseIssuePlace d))) <= 9.
Proof.
  unfold driver_fits, code_fits. intros H.
  repeat (apply andb_prop in H; destruct H as [H ?]).
  repeat match goal with
         | E : (_ <=? _) = true |- _ => apply Z.leb_le in E
         end.
  repeat split; try assumption.
  destruct (Driver.residencePlace d); cbn [optional_code_fits] in *;
    [unfold code_fits in *; now apply Z.leb_le | exact I].
Qed.

Lemma driver_fields_widths (d : Driver.t) :
  driver_fits d = true -> List.map len (driver_fields d) = driver_widths.
Proof.
  intros Hfits.
  destruct (driver_fits_bounds d Hfits) as (Hdate & Hbp & Hcit & Hres & Hdip & Hlip).
  unfold driver_fields, driver_widths. cbn [List.map].
  rewrite !len_padString_default by lia.
  rewrite !len_padNumber, len_padEnd by reflexivity.
  assert (Hr : len match Driver.residencePlace d with
                   | Some place => padNumber (Location.code place) 9
                   | None => str "         "
                   end = 9).
  { destruct (Driver.residencePlace d); [rewrite len_padNumber; lia | reflexivity]. }
  rewrite Hr. repeat f_equal; lia.
Qed.

(** X5.  In the block of a driver whose codes and birth date keep to their
    columns every field sits at the columns the layout gives it: surname
    0-50, name 50-80, birth date 80-90, birth place 90-99, citizenship
    99-108, residence place 108-117 (nine spaces when absent), residence
    address 117-267, document type 267-272, document number 272-292,
    document issue place 292-301, license number 301-321, license issue
    place 321-330, phone 330-350. *)
Theorem formatDriver_layout (driver : Driver.t) (Hfits : driver_fits driver = true) :
  let r := formatDriver driver in
  substring r 0 50 = padString (Driver.surname driver) 50 None
  /\ substring r 50 80 = padString (Driver.name driver) 30 None
  /\ substring r 80 90 = padEnd (formatDate (Driver.birthDate driver) false) 10 (str " ")
  /\ substring r 90 99 = padNumber (Location.code (Driver.birthPlace driver)) 9
  /\ substring r 99 108 = padNumber (Location.code (Driver.citizenship driver)) 9
  /\ substring r 108 117
     = match Driver.residencePlace driver with
       | Some p => padNumber (Location.code p) 9
       | None => spaces 9
       end
  /\ substring r 117 267 = padString (or_empty (Driver.residenceAddress driver)) 150 None
  /\ substring r 267 272
     = padString (DocumentType.value (Driver.documentType driver)) 5 None
  /\ substring r 272 292 = padString (Driver.documentNumber driver) 20 None
  /\ substring r 292 301 = padNumber (Location.code (Driver.documentIssuePlace driver)) 9
  /\ substring r 301 321 = padString (Driver.licenseNumber driver) 20 None
  /\ substring r 321 330 = padNumber (Location.code (Driver.licenseIssuePlace driver)) 9
  /\ substring r 330 350 = padString (or_empty (Driver.phone driver)) 20 None.
Proof.
  cbv zeta. rewrite formatDriver_fields.
  pose proof (field_of_concat (driver_fields driver)) as Hfield.
  rewrite (driver_fields_widths driver Hfits) in Hfield.
  repeat split;
    [ apply (Hfield 0%nat) | apply (Hfield 1%nat) | apply (Hfield 2%nat)
    | apply (Hfield 3%nat) | apply (Hfield 4%nat) | apply (Hfield 5%nat)
    | apply (Hfield 6%nat) | apply (Hfield 7%nat) | apply (Hfield 8%nat)
    | apply (Hfield 9%nat) | apply (Hfield 10%nat) | apply (Hfield 11%nat)
    | apply (Hfield 12%nat) ]; reflexivity.
Qed.

Lemma formatDriver_layout_witness :
  driver_fits createTestDriver = true
  /\ substring (formatDriver createTestDriver) 108 117 = spaces 9
  /\ substring (formatDriver createTestDriver) 330 350 = spaces 20.
Proof.
  split; [reflexivity|].
  destruct (formatDriver_layout createTestDriver eq_refl)
    as (_ & _ & _ & _ & _ & Hres & _ & _ & _ & _ & _ & _ & Hphone).
  split; [exact Hres | exact Hphone].
Defined.

Lemma driver_fits_iff (d : Driver.t) :
  len (formatDriver d) = 350 <-> driver_fits d = true.
Proof.
  rewrite len_formatDriver. unfold driver_fits, driver_code_columns, code_columns, code_fits.
  rewrite !andb_true_iff, !Z.leb_le.
  destruct (Driver.residencePlace d) as [p|]; cbn [optional_code_fits];
    unfold code_fits; rewrite ?Z.leb_le; intuition lia.
Qed.

Lemma contract_fits_bounds (c : RentalContract.t) :
  contract_fits c = true <->
  len (formatDate (RentalContract.createdDate c) true) <= 16
  /\ len (formatDate (RentalContract.checkoutDate c) true) <= 16
  /\ len (formatDate (RentalContract.checkinDate c) true) <= 16
  /\ len (String_ (Location.code (RentalContract.checkoutLocation c))) <= 9
  /\ len (String_ (Location.code (RentalContract.checkinLocation c))) <= 9
  /\ len (String_ (Location.code (Agency.location (RentalContract.agency c)))) <= 9
  /\ len (formatDriver (RentalContract.mainDriver c)) = 350
  /\ match RentalContract.secondaryDriver c with
     | Some d => len (formatDriver d) = 350
     | None => True
     end.
Proof.
  unfold contract_fits, code_fits.
  rewrite !andb_true_iff, !Z.leb_le, driver_fits_iff.
  destruct (RentalContract.secondaryDriver c) as [d|]; [rewrite driver_fits_iff|];
    intuition congruence.
Qed.

(** X6.  The length of a record tells whether anything overflowed: a record
    has its layout width (1504 characters without a secondary driver, 1664
    with one) exactly when every timestamp and every numeric code of the
    contract and of its drivers keeps to its columns. *)
Theorem formatContract_nominal_iff_fits (c : RentalContract.t) :
  len (formatContract c) = nominal_width c <-> contract_fits c = true.
Proof.
  rewrite contract_fits_bounds, len_formatContract.
  unfold nominal_width, timestamp_columns, code_columns.
  change contract_fields_width with 964. change driver_width with 350.
  pose proof (driver_width_min (RentalContract.mainDriver c)) as Hmain.
  change driver_width with 350 in Hmain.
  destruct (RentalContract.secondaryDriver c) as [d|].
  - pose proof (driver_width_min d) as Hsec. change driver_width with 350 in Hsec.
    intuition lia.
  - intuition lia.
Qed.

Lemma len_formatContract_when_fits (c : RentalContract.t) :
  contract_fits c = true ->
  len (formatContract c)
  = 1314 + match RentalContract.secondaryDriver c with
           | Some _ => 350
           | None => 190
           end.
Proof.
  intros Hfits. apply contract_fits_bounds in Hfits.
  destruct Hfits as (H1 & H2 & H3 & H4 & H5 & H6 & Hmain & Hsec).
  rewrite len_formatContract. unfold timestamp_columns, code_columns.
  destruct (RentalContract.secondaryDriver c); lia.
Qed.

Lemma contract_fields_widths (c : RentalContract.t) :
  contract_fits c = true ->
  List.map len (contract_fields c)
  = contract_widths match RentalContract.secondaryDriver c with
                    | Some _ => 350
                    | None => 190
                    end.
Proof.
  intros Hfits. apply contract_fits_bounds in Hfits.
  destruct Hfits as (H1 & H2 & H3 & H4 & H5 & H6 & Hmain & Hsec).
  unfold contract_fields, contract_widths. cbv zeta. cbn [List.map].
  rewrite !len_padString_default by lia.
  rewrite !len_padNumber, !len_padEnd by reflexivity.
  rewrite len_PaymentType, len_VehicleType, !len_flag_char, Hmain.
  assert (Hs : len match RentalContract.secondaryDriver c with
                   | Some driver => formatDriver driver
                   | None => spaces 190
                   end
               = match RentalContract.secondaryDriver c with
                 | Some _ => 350
                 | None => 190
                 end).
  { destruct (RentalContract.secondaryDriver c); [exact Hsec | reflexivity]. }
  rewrite Hs. repeat f_equal; lia.
Qed.

(** X7.  In the record of a contract in which nothing overflows every
    field sits at the columns of the layout: the payment type is the
    character at column 66, the checkout timestamp is at 67-83, the vehicle
    type at 746, the two flags at 962 and 963, the block of the main driver
    at 964-1314 and the block of the secondary driver, or 190 spaces, from
    1314 on. *)
Theorem formatContract_layout (c : RentalContract.t) (Hfits : contract_fits c = true) :
  let r := formatContract c in
  let agency := RentalContract.agency c in
  let vehicle := RentalContract.vehicle c in
  substring r 0 50 = padString (RentalContract.id c) 50 None
  /\ substring r 50 66 = padEnd (formatDate (RentalContract.createdDate c) true) 16 (str " ")
  /\ substring r 66 67 = PaymentType.value (RentalContract.paymentType c)
  /\ substring r 67 83 = padEnd (formatDate (RentalContract.checkoutDate c) true) 16 (str " ")
  /\ substring r 83 92 = padNumber (Location.code (RentalContract.checkoutLocation c)) 9
  /\ substring r 92 242 = padString (RentalContract.checkoutAddress c) 150 None
  /\ substring r 242 258 = padEnd (formatDate (RentalContract.checkinDate c) true) 16 (str " ")
  /\ substring r 258 267 = padNumber (Location.code (RentalContract.checkinLocation c)) 9
  /\ substring r 267 417 = padString (RentalContract.checkinAddress c) 150 None
  /\ substring r 417 467 = padString (RentalContract.operatorId c) 50 None
  /\ substring r 467 497 = padString (Agency.id agency) 30 None
  /\ substring r 497 567 = padString (Agency.name agency) 70 None
  /\ substring r 567 576 = padNumber (Location.code (Agency.location agency)) 9
  /\ substring r 576 726 = padString (Agency.address agency) 150 None
  /\ substring r 726 746 = padString (Agency.phone agency) 20 None
  /\ substring r 746 747 = VehicleType.value (Vehicle.type vehicle)
  /\ substring r 747 797 = padString (Vehicle.brand vehicle) 50 None
  /\ substring r 797 897 = padString (Vehicle.model vehicle) 100 None
  /\ substring r 897 912 = padString (Vehicle.plate vehicle) 15 None
  /\ substring r 912 962 = padString (or_empty (Vehicle.color vehicle)) 50 None
  /\ substring r 962 963 = flag_char (Vehicle.hasGPS vehicle)
  /\ substring r 963 964 = flag_char (Vehicle.hasEngineBlock vehicle)
  /\ substring r 964 1314 = formatDriver (RentalContract.mainDriver c)
  /\ substring r 1314 (len r)
     = match RentalContract.secondaryDriver c with
       | Some d => formatDriver d
       | None => spaces 190
       end.
Proof.
  cbv zeta.
  assert (Hlen : len (formatContract c)
                 = 1314 + match RentalContract.secondaryDriver c with
                          | Some _ => 350
                          | None => 190
                          end).
  { now apply len_formatContract_when_fits. }
  rewrite Hlen. rewrite formatContract_fields.
  pose proof (field_of_concat (contract_fields c)) as Hfield.
  rewrite (contract_fields_widths c Hfits) in Hfield.
  unfold contract_fields in *. cbv zeta in *.
  destruct (RentalContract.secondaryDriver c) as [d|];
  (repeat split;
    [ apply (Hfield 0%nat) | apply (Hfield 1%nat) | apply (Hfield 2%nat)
    | apply (Hfield 3%nat) | apply (Hfield 4%nat) | apply (Hfield 5%nat)
    | apply (Hfield 6%nat) | apply (Hfield 7%nat) | apply (Hfield 8%nat)
    | apply (Hfield 9%nat) | apply (Hfield 10%nat) | apply (Hfield 11%nat)
    | apply (Hfield 12%nat) | apply (Hfield 13%nat) | apply (Hfield 14%nat)
    | apply (Hfield 15%nat) | apply (Hfield 16%nat) | apply (Hfield 17%nat)
    | apply (Hfield 18%nat) | apply (Hfield 19%nat) | apply (Hfield 20%nat)
    | apply (Hfield 21%nat) | apply (Hfield 22%nat) | apply (Hfield 23%nat) ];
    reflexivity).
Qed.

Lemma formatContract_layout_witness :
  contract_fits createTestContract = true
  /\ substring (formatContract createTestContract) 66 67 = str "T"
  /\ substring (formatContract createTestContract) 964 1314 = formatDriver createTestDriver.
Proof.
  split; [reflexivity|].
  pose proof (formatContract_layout createTestContract eq_refl) as H. cbv zeta in H.
  split; [apply H | apply H].
Defined.

(** ** Encryption: the part of the key that is used *)

(** X8.  Only the first 48 characters of the key are used: two keys of at
    least 48 characters that agree on them encrypt every token alike (or
    fail alike), so for a longer key the initialization vector is
    characters 33 to 48 and not the last 16. *)
Theorem encryptAES_uses_first_48 (aes : aes_256_cbc) (token key key' : jsstring)
    (Hlen : 48 <= len key) (Hlen' : 48 <= len key')
    (Hsame : firstn 48 key = firstn 48 key') :
  encryptAES aes token key = encryptAES aes token key'.
Proof.
  assert (Hf : forall k, 48 <= len k -> falsy k || (len k <? 48) = false).
  { intros k Hk. destruct k; [unfold len in Hk; cbn in Hk; lia|].
    cbn [falsy orb]. apply Z.ltb_ge. exact Hk. }
  unfold encryptAES. rewrite (Hf key Hlen), (Hf key' Hlen').
  rewrite !substring_key, !substring_iv by assumption.
  destruct (firstn_skipn_firstn key) as [Ek Ei].
  destruct (firstn_skipn_firstn key') as [Ek' Ei'].
  rewrite <- Ek, <- Ei, <- Ek', <- Ei', Hsame. reflexivity.
Qed.

Lemma encryptAES_uses_first_48_witness :
  encryptAES toy_cipher (str "token") (validApiKey ++ str "-rotated")
  = encryptAES toy_cipher (str "token") validApiKey.
Proof.
  apply (encryptAES_uses_first_48 toy_cipher (str "token")
           (validApiKey ++ str "-rotated") validApiKey).
  - vm_compute. discriminate.
  - vm_compute. discriminate.
  - reflexivity.
Defined.

(** ** Batch sending: requests *)

Lemma send_all_ext {A R : Type} (f g : list A -> completion R) (slices : list (list A)) :
  Forall (fun s => f s = g s) slices -> send_all f slices = send_all g slices.
Proof.
  induction 1 as [|s rest Hs _ IH]; cbn [send_all]; [reflexivity|].
  now rewrite Hs, IH.
Qed.

Lemma send_all_map {A B R : Type} (t : list B -> completion R) (h : list A -> list B)
    (slices : list (list A)) :
  send_all (fun s => t (h s)) slices = send_all t (List.map h slices).
Proof.
  induction slices as [|s rest IH]; cbn [send_all List.map]; [reflexivity|].
  now rewrite IH.
Qed.


Lemma length_slices_from {A : Type} (fuel : nat) :
  forall (contracts : list A) (i : Z), 0 <= i ->
    len_of contracts - i < Z.of_nat fuel ->
    List.length (slices_from fuel contracts i)
    = Z.to_nat ((len_of contracts - i + 99) / 100).
Proof.
  induction fuel as [|fuel IH]; intros contracts i Hi Hfuel; cbn [slices_from].
  - assert ((len_of contracts - i + 99) / 100 <= 0)
      by (apply Z.lt_succ_r, Z.div_lt_upper_bound; lia).
    cbn [List.length]. lia.
  - destruct (Z.ltb_spec i (len_of contracts)).
    + cbn [List.length]. rewrite IH by (unfold chunkSize; lia). unfold chunkSize.
      replace (len_of contracts - i + 99) with ((len_of contracts - (i + 100) + 99) + 1 * 100)
        by lia.
      rewrite Z.div_add by lia.
      assert (-1 <= (len_of contracts - (i + 100) + 99) / 100).
      { apply Z.div_le_lower_bound; lia. }
      destruct (Z.eq_dec ((len_of contracts - (i + 100) + 99) / 100) (-1)) as [E|E].
      * exfalso.
        pose proof (Z.mul_div_le (len_of contracts - (i + 100) + 99) 100 ltac:(lia)).
        pose proof (Z.mod_pos_bound (len_of contracts - (i + 100) + 99) 100 ltac:(lia)).
        pose proof (Z.div_mod (len_of contracts - (i + 100) + 99) 100 ltac:(lia)).
        lia.
      * lia.
    + assert ((len_of contracts - i + 99) / 100 <= 0)
        by (apply Z.lt_succ_r, Z.div_lt_upper_bound; lia).
      cbn [List.length]. lia.
Qed.

Lemma send_all_answers {A R : Type} (send : list A -> completion R)
    (slices : list (list A)) :
  forall results,
    send_all send slices = Normal results <->
    Forall2 (fun s r => send s = Normal r) slices results.
Proof.
  induction slices as [|s rest IH]; intros results; cbn [send_all].
  - split.
    + intros E. injection E as <-. constructor.
    + intros H. inversion H. reflexivity.
  - split.
    + destruct (send s) as [r|e] eqn:Hs; [|discriminate].
      destruct (send_all send rest) as [rs|e] eqn:Hrest; [|discriminate].
      intros E. injection E as <-. constructor; [exact Hs | now apply IH].
    + intros H. inversion H as [|s' r rest' rs Hs Hrest]; subst.
      rewrite Hs. apply IH in Hrest. now rewrite Hrest.
Qed.

(** X9.  A batch returns exactly when every request for a slice of it is
    answered, and then with the answers to the slices in their order: one
    for every started hundred of contracts.  For an empty list no request
    is made and the result is the empty array; for any other list the
    result, if there is one, is not empty. *)
Theorem batchSendContracts_request_count {A R : Type} (send : list A -> completion R)
    (contracts : list A) :
  (forall results,
     batchSendContracts send contracts = Normal results <->
     Forall2 (fun s r => send s = Normal r) (chunks contracts) results)
  /\ (forall results,
        batchSendContracts send contracts = Normal results ->
        List.length results = Z.to_nat ((len_of contracts + 99) / 100))
  /\ (contracts = [] -> batchSendContracts send contracts = Normal [])
  /\ (contracts <> [] -> batchSendContracts send contracts <> Normal []).
Proof.
  assert (Hcount : List.length (chunks contracts)
                   = Z.to_nat ((len_of contracts + 99) / 100)).
  { rewrite chunks_slices, length_slices_from by (unfold len_of; lia).
    now rewrite Z.sub_0_r. }
  assert (Hiff : forall results,
             batchSendContracts send contracts = Normal results <->
             Forall2 (fun s r => send s = Normal r) (chunks contracts) results).
  { intros results. rewrite <- send_all_answers.
    unfold batchSendContracts. rewrite loop_sends_slices, <- chunks_slices.
    destruct (send_all send (chunks contracts)); cbn [app]; reflexivity. }
  split; [exact Hiff|]. split; [|split].
  - intros results Hres. apply Hiff, Forall2_length in Hres. now rewrite <- Hres.
  - intros ->. reflexivity.
  - intros Hne Hres. apply Hiff, Forall2_length in Hres.
    rewrite Hcount in Hres. cbn [List.length] in Hres.
    destruct contracts as [|a contracts]; [congruence|].
    assert (1 <= (len_of (a :: contracts) + 99) / 100).
    { apply Z.div_le_lower_bound; [lia|]. unfold len_of. cbn [List.length]. lia. }
    lia.
Qed.

Lemma batchSendContracts_request_count_witness :
  batchSendContracts second_request_fails [] = Normal []
  /\ batchSendContracts second_request_fails (List.seq 1 250) <> Normal []
  /\ exists results,
       batchSendContracts (fun chunk : list nat => Normal chunk) (List.seq 1 250)
       = Normal results
       /\ List.length results = 3%nat.
Proof.
  destruct (batchSendContracts_request_count second_request_fails [])
    as (_ & _ & Hempty & _).
  destruct (batchSendContracts_request_count second_request_fails (List.seq 1 250))
    as (_ & _ & _ & Hsome).
  destruct (batchSendContracts_request_count (fun chunk : list nat => Normal chunk)
              (List.seq 1 250)) as (_ & Hlength & _).
  split; [apply Hempty; reflexivity|]. split; [apply Hsome; discriminate|].
  exists (chunks (List.seq 1 250)). split; [vm_compute; reflexivity|].
  apply Hlength. vm_compute. reflexivity.
Defined.

(** X10.  Sending a batch through [sendContracts] never runs into its limit
    of 100 contracts: the transport gets the records of each slice in turn,
    and the records of all requests, put end to end, are the records of
    the contracts in their order. *)
Theorem batchSendContracts_through_sendContracts {R : Type}
    (transport : list jsstring -> completion R) (contracts : list RentalContract.t) :
  batchSendContracts (sendContracts transport) contracts
  = send_all transport (List.map (List.map formatContract) (chunks contracts))
  /\ List.concat (List.map (List.map formatContract) (chunks contracts))
     = List.map formatContract contracts
  /\ Forall (fun records => 1 <= len_of records <= 100)
            (List.map (List.map formatContract) (chunks contracts)).
Proof.
  assert (Hsizes : Forall (fun s => 1 <= len_of s <= chunkSize) (chunks contracts)).
  { rewrite chunks_slices. apply slices_from_sizes. lia. }
  split; [|split].
  - unfold batchSendContracts. rewrite loop_sends_slices, <- chunks_slices.
    cbn [app].
    rewrite (send_all_ext (sendContracts transport)
               (fun s => transport (List.map formatContract s))).
    + rewrite send_all_map. destruct (send_all transport _); reflexivity.
    + eapply Forall_impl; [|exact Hsizes]. intros s Hs. unfold sendContracts.
      unfold chunkSize in Hs. destruct (Z.ltb_spec 100 (len_of s)); [lia | reflexivity].
  - rewrite <- concat_map. f_equal.
    rewrite chunks_slices, concat_slices_from by (unfold len_of; lia). reflexivity.
  - apply Forall_map. eapply Forall_impl; [|exact Hsizes].
    intros s Hs. unfold len_of in *. rewrite length_map. exact Hs.
Qed.



(** ** Token cache: what is kept and for how long *)

(** Moving the minutes back by five moves the local time back by five
    minutes, whatever the minutes were. *)
Lemma setMinutes_moves_local (local : Z) :
  MakeDate (Day local)
           (MakeTime (HourFromTime local) (MinFromTime local - 5) (SecFromTime local)
                     (msFromTime local))
  = local - five_minutes.
Proof.
  unfold MakeDate, MakeTime, Day, HourFromTime, MinFromTime, SecFromTime, msFromTime,
    msPerDay, msPerHour, msPerMinute, msPerSecond, five_minutes.
  Z.div_mod_to_equations. lia.
Qed.

Lemma minus_five_minutes_stored (zone : TimeZone.t) (expiry : Z) :
  minus_five_minutes zone (Int expiry)
  = TimeClip (expiry + TimeZone.offset_at zone expiry - 300000
              - TimeZone.offset_of_local zone
                  (expiry + TimeZone.offset_at zone expiry - 300000)).
Proof.
  cbn [minus_five_minutes]. cbv zeta. rewrite setMinutes_moves_local.
  reflexivity.
Qed.

(** On a host in Europe/Rome an expiry at 01:02 UTC on 31 March 2024 is
    03:02 local time; five minutes less is 02:57, which the clock skipped
    and which is read back as 01:57 UTC: 55 minutes after the expiry. *)
Example minus_five_minutes_across_clock_change :
  minus_five_minutes europe_rome_2024 (Int 1711846920000) = Int 1711850220000
  /\ minus_five_minutes utc (Int 1711846920000) = Int 1711846620000.
Proof. split; reflexivity. Qed.

(** X12.  After an answer with a token and an expiry that parses, the
    client stores as expiry the local time of the answer's expiry, five
    minutes earlier, read back as a time value, and serves the token from
    the cache exactly before that instant: a call before it returns the
    token without a credential exchange, a call from then on sends a new
    one.  When the local clock does not change in those five minutes the
    stored expiry is 300000 ms before the answer's. *)
Theorem getToken_cache_window (zone : TimeZone.t) (parse : jsstring -> number)
    (w : World) (caller : nat) (data : TokenResponse.t) (expiry stored : Z)
    (Hwaits : lookup caller (pending w) = Some AwaitJson)
    (Htoken : falsy (TokenResponse.access_token data) = false)
    (Hexpires : falsy (TokenResponse.expires_date data) = false)
    (Hparse : parse (TokenResponse.expires_date data) = Int expiry)
    (Hstored : stored
               = expiry + TimeZone.offset_at zone expiry - 300000
                 - TimeZone.offset_of_local zone
                     (expiry + TimeZone.offset_at zone expiry - 300000))
    (Hrange : Z.abs stored <= 8640000000000000) :
  let w' := getToken_body zone parse w caller data in
  Client.tokenExpiry (client w') = Some (Int stored)
  /\ (TimeZone.offset_of_local zone (expiry + TimeZone.offset_at zone expiry - 300000)
      = TimeZone.offset_at zone expiry ->
      stored = expiry - 300000)
  /\ forall (next : nat) (now : Z),
       cached (client w') now
       = (if now <? stored then Some (TokenResponse.access_token data) else None)
       /\ outstanding (getToken w' next now)
          = (if now <? stored then outstanding w' else S (outstanding w')).
Proof.
  cbv zeta.
  assert (He : Client.tokenExpiry (client (getToken_body zone parse w caller data))
               = Some (Int stored)).
  { unfold getToken_body. rewrite Hwaits, Hexpires, Hparse.
    cbn [client Client.tokenExpiry]. rewrite minus_five_minutes_stored, <- Hstored.
    unfold TimeClip. destruct (Z.leb_spec (Z.abs stored) 8640000000000000); [reflexivity | lia]. }
  split; [exact He|]. split; [intros Hclock; rewrite Hclock in Hstored; lia|].
  intros next now.
  assert (Hc : cached (client (getToken_body zone parse w caller data)) now
               = (if now <? stored
                  then Some (TokenResponse.access_token data) else None)).
  { unfold cached. rewrite He.
    unfold getToken_body. rewrite Hwaits. cbn [client Client.token].
    rewrite Htoken. cbn [negb andb]. reflexivity. }
  split; [exact Hc|].
  destruct (now <? stored) eqn:Hnow.
  - now apply (outstanding_call_hit zone parse _ next now _ Hc).
  - now apply (outstanding_call_miss zone parse _ next now Hc).
Qed.

Lemma getToken_cache_window_witness :
  cached (client (getToken_body utc (parse_fixed (Int 1000000))
                                (awaiting_body (client fresh) 1) 1 sample_answer)) 699999
  = Some (str "abc")
  /\ cached (client (getToken_body utc (parse_fixed (Int 1000000))
                                   (awaiting_body (client fresh) 1) 1 sample_answer)) 700000
     = None
  /\ cached (client (getToken_body europe_rome_2024 (parse_fixed (Int 1711846920000))
                                   (awaiting_body (client fresh) 1) 1 sample_answer))
            1711850219999
     = Some (str "abc").
Proof.
  assert (Hrange : Z.abs 700000 <= 8640000000000000) by (cbn [Z.abs]; lia).
  assert (Hrome : Z.abs 1711850220000 <= 8640000000000000) by (cbn [Z.abs]; lia).
  pose proof (getToken_cache_window utc (parse_fixed (Int 1000000))
                (awaiting_body (client fresh) 1) 1 sample_answer 1000000 700000
                eq_refl eq_refl eq_refl eq_refl eq_refl Hrange) as H.
  pose proof (getToken_cache_window europe_rome_2024 (parse_fixed (Int 1711846920000))
                (awaiting_body (client fresh) 1) 1 sample_answer 1711846920000
                1711850220000 eq_refl eq_refl eq_refl eq_refl eq_refl Hrome) as H'.
  cbv zeta in H, H'.
  destruct H as (_ & _ & H). destruct H' as (_ & _ & H').
  split; [exact (proj1 (H 2%nat 699999))|].
  split; [exact (proj1 (H 2%nat 700000)) | exact (proj1 (H' 2%nat 1711850219999))].
Defined.

(** X13.  An answer leaves nothing to serve from the cache when its token
    is empty, when its expiry does not parse, or when it has no expiry and
    none was stored before: every later call, at any time, sends a
    credential exchange again. *)
Theorem getToken_never_cached (zone : TimeZone.t) (parse : jsstring -> number)
    (w : World) (caller : nat) (data : TokenResponse.t)
    (Hwaits : lookup caller (pending w) = Some AwaitJson)
    (Hunusable :
       falsy (TokenResponse.access_token data) = true
       \/ (falsy (TokenResponse.expires_date data) = false
           /\ parse (TokenResponse.expires_date data) = NaN)
       \/ (falsy (TokenResponse.expires_date data) = true
           /\ Client.tokenExpiry (client w) = None)) :
  let w' := getToken_body zone parse w caller data in
  forall (next : nat) (now : Z),
    cached (client w') now = None
    /\ outstanding (getToken w' next now) = S (outstanding w').
Proof.
  cbv zeta. intros next now.
  assert (Hc : cached (client (getToken_body zone parse w caller data)) now = None).
  { unfold getToken_body. rewrite Hwaits.
    cbn [client Client.token Client.tokenExpiry cached].
    destruct Hunusable as [Htok|[[Hexp Hnan]|[Hexp Hnone]]].
    - rewrite Htok.
      destruct (if falsy (TokenResponse.expires_date data) then _ else _) as [[e|]|];
        reflexivity.
    - rewrite Hexp, Hnan. reflexivity.
    - rewrite Hexp, Hnone. reflexivity. }
  split; [exact Hc|].
  now apply (outstanding_call_miss zone parse _ next now Hc).
Qed.

Lemma getToken_never_cached_witness :
  lookup 1%nat (pending (awaiting_body (client fresh) 1)) = Some AwaitJson
  /\ forall now,
       cached (client (getToken_body utc (parse_fixed (Int 1000000))
                                     (awaiting_body (client fresh) 1) 1
                                     answer_without_expiry)) now = None.
Proof.
  split; [reflexivity|]. intros now.
  pose proof (getToken_never_cached utc (parse_fixed (Int 1000000))
                (awaiting_body (client fresh) 1) 1 answer_without_expiry eq_refl
                (or_intror (or_intror (conj eq_refl eq_refl)))) as H.
  cbv zeta in H. exact (proj1 (H 2%nat now)).
Defined.

Lemma step_keeps_client (zone : TimeZone.t) (parse : jsstring -> number) (w : World) (e : event) :
  is_body e = false -> client (step zone parse w e) = client w.
Proof.
  destruct e as [caller now|caller ok statusText|caller data|caller error];
    cbn [is_body step]; intros H; try discriminate.
  - unfold getToken. destruct (cached (client w) now); reflexivity.
  - unfold getToken_response.
    destruct (lookup caller (pending w)) as [[|]|]; try reflexivity.
    destruct ok; reflexivity.
  - unfold getToken_rejected. destruct (lookup caller (pending w)); reflexivity.
Qed.

(** X14.  The stored token and expiry change only when the body of an
    answer arrives: calls, responses that are not ok and rejected requests
    leave them as they were, so a failed refresh does not lose a token
    that is still valid. *)
Theorem getToken_failure_keeps_cache (zone : TimeZone.t) (parse : jsstring -> number)
    (trace : list event) :
  forall (w : World),
    forallb (fun e => negb (is_body e)) trace = true ->
    client (run zone parse w trace) = client w
    /\ (forall now, cached (client (run zone parse w trace)) now = cached (client w) now).
Proof.
  induction trace as [|e trace IH]; intros w H; cbn [run fold_left].
  - split; reflexivity.
  - cbn [forallb] in H. apply andb_prop in H. destruct H as [He Htrace].
    apply negb_true_iff in He.
    destruct (IH (step zone parse w e) Htrace) as [Hclient _].
    unfold run in Hclient.
    assert (E : client (fold_left (step zone parse) trace (step zone parse w e)) = client w)
      by (rewrite Hclient; now apply step_keeps_client).
    split; [exact E | intros now; now rewrite E].
Qed.

Lemma getToken_failure_keeps_cache_witness :
  client (run utc (parse_fixed NaN) fresh
              [Call 1 0; Response 1 false (str "Unauthorized"); Call 2 5;
               Rejected 2 (str "TypeError: fetch failed")])
  = client fresh.
Proof.
  apply (getToken_failure_keeps_cache utc (parse_fixed NaN)
           [Call 1 0; Response 1 false (str "Unauthorized"); Call 2 5;
            Rejected 2 (str "TypeError: fetch failed")] fresh).
  reflexivity.
Defined.

(** ** Strings, maps and trimming *)

Lemma string_eqb_eq (a b : jsstring) : string_eqb a b = true <-> a = b.
Proof.
  revert b. induction a as [|x a IH]; intros [|y b]; cbn [string_eqb];
    try (split; [discriminate | discriminate]); [split; reflexivity|].
  rewrite andb_true_iff, Z.eqb_eq, IH. split.
  - intros [-> ->]. reflexivity.
  - intros E. injection E as -> ->. split; reflexivity.
Qed.

Lemma string_eqb_refl (a : jsstring) : string_eqb a a = true.
Proof. now apply string_eqb_eq. Qed.

Lemma string_eqb_neq (a b : jsstring) : a <> b -> string_eqb a b = false.
Proof.
  intros H. destruct (string_eqb a b) eqn:E; [|reflexivity].
  apply string_eqb_eq in E. contradiction.
Qed.

Section MapFacts.
Context {V : Type}.
Implicit Types (m : JSMap.t V) (k key : jsstring) (v : V).

Lemma get_set key k v m :
  JSMap.get key (JSMap.set k v m) = if string_eqb k key then Some v else JSMap.get key m.
Proof.
  induction m as [|[k0 v0] m IH]; cbn [JSMap.set JSMap.get].
  - reflexivity.
  - destruct (string_eqb k0 k) eqn:E0.
    + apply string_eqb_eq in E0. subst k0. cbn [JSMap.get].
      destruct (string_eqb k key); reflexivity.
    + cbn [JSMap.get]. rewrite IH.
      destruct (string_eqb k0 key) eqn:E1, (string_eqb k key) eqn:E2; try reflexivity.
      apply string_eqb_eq in E1, E2. subst. rewrite string_eqb_refl in E0. discriminate.
Qed.

Lemma set_fresh key v m : JSMap.get key m = None -> JSMap.set key v m = m ++ [(key, v)].
Proof.
  induction m as [|[k0 v0] m IH]; cbn [JSMap.set JSMap.get app]; intros H.
  - reflexivity.
  - destruct (string_eqb k0 key); [discriminate|]. now rewrite IH.
Qed.

Lemma get_app key m m' :
  JSMap.get key (m ++ m')
  = match JSMap.get key m with Some v => Some v | None => JSMap.get key m' end.
Proof.
  induction m as [|[k0 v0] m IH]; cbn [JSMap.get app]; [reflexivity|].
  destruct (string_eqb k0 key); [reflexivity | exact IH].
Qed.

Lemma in_set k v key v' m :
  In (k, v) (JSMap.set key v' m) -> In (k, v) m \/ (k = key /\ v = v').
Proof.
  induction m as [|[k0 v0] m IH]; cbn [JSMap.set].
  - intros [E|[]]. injection E as <- <-. right. split; reflexivity.
  - destruct (string_eqb k0 key) eqn:E0.
    + apply string_eqb_eq in E0. subst k0.
      intros [E|H]; [injection E as <- <-; right; split; reflexivity | left; now right].
    + intros [E|H]; [left; now left|].
      destruct (IH H) as [Hin|Hnew]; [left; now right | right; exact Hnew].
Qed.

Lemma find_app_last {E : Type} (p : E -> bool) (l : list E) (e : E) :
  List.find p (l ++ [e])
  = match List.find p l with
    | Some x => Some x
    | None => if p e then Some e else None
    end.
Proof.
  induction l as [|x l IH]; cbn [List.find app]; [reflexivity|].
  destruct (p x); [reflexivity | exact IH].
Qed.

(** Reading a key after a run of [set]s gives the value of the last [set]
    on that key, or what was there before. *)
Lemma get_after_sets {E : Type} (keyOf : E -> jsstring) (valueOf : E -> V)
    (entries : list E) :
  forall m key,
    JSMap.get key (fold_left (fun acc e => JSMap.set (keyOf e) (valueOf e) acc) entries m)
    = match List.find (fun e => string_eqb (keyOf e) key) (List.rev entries) with
      | Some e => Some (valueOf e)
      | None => JSMap.get key m
      end.
Proof.
  induction entries as [|e entries IH]; intros m key; cbn [fold_left List.rev].
  - reflexivity.
  - rewrite IH, find_app_last.
    destruct (List.find _ (List.rev entries)); [reflexivity|].
    rewrite get_set. destruct (string_eqb (keyOf e) key); reflexivity.
Qed.

Lemma sets_of_fresh_keys (entries : list (jsstring * V)) :
  forall m,
    NoDup (List.map fst entries) ->
    (forall e, In e entries -> JSMap.get (fst e) m = None) ->
    fold_left (fun acc e => JSMap.set (fst e) (snd e) acc) entries m = m ++ entries.
Proof.
  induction entries as [|[k v] entries IH]; intros m Hnd Hfresh; cbn [fold_left].
  - now rewrite app_nil_r.
  - cbn [List.map] in Hnd. inversion Hnd as [|? ? Hnotin Hnd']; subst.
    cbn [fst snd]. rewrite set_fresh by (apply (Hfresh (k, v)); now left).
    rewrite IH; [now rewrite <- app_assoc | assumption |].
    intros e He. rewrite get_app, (Hfresh e) by now right.
    cbn [JSMap.get]. rewrite string_eqb_neq; [reflexivity|].
    intros ->. apply Hnotin. now apply in_map.
Qed.
End MapFacts.

Lemma trimStart_text (s : jsstring) : first_is_text s = true -> trimStart s = s.
Proof.
  destruct s as [|c s]; cbn [first_is_text trimStart]; [discriminate|].
  intros H. apply negb_true_iff in H. now rewrite H.
Qed.

Lemma trim_text_ends (s : jsstring) :
  first_is_text s = true -> first_is_text (List.rev s) = true -> trim s = s.
Proof.
  intros H1 H2. unfold trim. rewrite (trimStart_text s H1), (trimStart_text _ H2).
  apply rev_involutive.
Qed.

Lemma trimStart_result (s : jsstring) :
  trimStart s = [] \/ first_is_text (trimStart s) = true.
Proof.
  induction s as [|c s IH]; cbn [trimStart]; [now left|].
  destruct (is_whitespace c) eqn:E; [exact IH|].
  right. cbn [first_is_text]. now rewrite E.
Qed.

Lemma trimStart_suffix (s : jsstring) : exists skipped, s = skipped ++ trimStart s.
Proof.
  induction s as [|c s [skipped IH]]; cbn [trimStart]; [now exists []|].
  destruct (is_whitespace c).
  - exists (c :: skipped). cbn [app]. now rewrite <- IH.
  - now exists [].
Qed.

Lemma first_is_text_app (a b : jsstring) :
  a <> [] -> first_is_text (a ++ b) = first_is_text a.
Proof. destruct a; [congruence | reflexivity]. Qed.

Lemma trim_result (s : jsstring) :
  trim s = [] \/ (first_is_text (trim s) = true /\ first_is_text (List.rev (trim s)) = true).
Proof.
  unfold trim.
  destruct (trimStart_result (List.rev (trimStart s))) as [E|Hd]; [left; now rewrite E|].
  right. rewrite rev_involutive. split; [|exact Hd].
  destruct (trimStart_suffix (List.rev (trimStart s))) as [skipped Hsuffix].
  set (d := trimStart (List.rev (trimStart s))) in *.
  assert (Hu : trimStart s = List.rev d ++ List.rev skipped).
  { rewrite <- rev_app_distr, <- Hsuffix. now rewrite rev_involutive. }
  assert (Hne : List.rev d <> []).
  { intros E. apply (f_equal (@List.rev code_unit)) in E.
    rewrite rev_involutive in E. cbn in E. rewrite E in Hd. discriminate. }
  rewrite <- (first_is_text_app (List.rev d) (List.rev skipped) Hne), <- Hu.
  destruct (trimStart_result s) as [E|Hs]; [|exact Hs].
  rewrite E in Hu. symmetry in Hu. apply app_eq_nil in Hu. tauto.
Qed.

Lemma trim_idempotent (s : jsstring) : trim (trim s) = trim s.
Proof.
  destruct (trim_result s) as [E|[H1 H2]]; [now rewrite E | now apply trim_text_ends].
Qed.

Lemma trim_skips_whitespace (c : code_unit) (s : jsstring) :
  is_whitespace c = true -> trim (c :: s) = trim s.
Proof. intros H. unfold trim. cbn [trimStart]. now rewrite H. Qed.

Lemma split_from_plain (sep : code_unit) (s : jsstring) :
  forall current, forallb (fun c => negb (c =? sep)) s = true ->
    split_from sep s current = [current ++ s].
Proof.
  induction s as [|c s IH]; intros current H; cbn [split_from].
  - now rewrite app_nil_r.
  - cbn [forallb] in H. apply andb_prop in H. destruct H as [Hc Hs].
    apply negb_true_iff in Hc. rewrite Hc, IH by assumption.
    now rewrite <- app_assoc.
Qed.

Lemma split_from_piece (sep : code_unit) (a b : jsstring) :
  forall current, forallb (fun c => negb (c =? sep)) a = true ->
    split_from sep (a ++ sep :: b) current = (current ++ a) :: split_from sep b [].
Proof.
  induction a as [|c a IH]; intros current H; cbn [split_from app].
  - now rewrite Z.eqb_refl, app_nil_r.
  - cbn [forallb] in H. apply andb_prop in H. destruct H as [Hc Ha].
    apply negb_true_iff in Hc. rewrite Hc, IH by assumption.
    now rewrite <- app_assoc.
Qed.

Lemma split_from_pieces (sep : code_unit) (p : code_unit -> bool) (s : jsstring) :
  forall current, forallb p s = true -> forallb p current = true ->
    Forall (fun piece => forallb p piece = true) (split_from sep s current).
Proof.
  induction s as [|c s IH]; intros current Hs Hcur; cbn [split_from].
  - constructor; [assumption | constructor].
  - cbn [forallb] in Hs. apply andb_prop in Hs. destruct Hs as [Hc Hs].
    destruct (c =? sep).
    + constructor; [assumption | now apply IH].
    + apply IH; [assumption|]. rewrite forallb_app, Hcur. cbn [forallb]. now rewrite Hc.
Qed.

(** ** Reading a reference table *)

(** Rewrites with an equation after writing the names of the string types
    out on both sides. *)
Ltac rewrite_units H :=
  let E := fresh "E" in
  pose proof H as E;
  unfold jsstring, code_unit in E;
  unfold jsstring, code_unit;
  rewrite E; clear E.

Lemma clean_parts (s : jsstring) :
  clean s = true ->
  first_is_text s = true /\ first_is_text (List.rev s) = true
  /\ forallb (fun c => negb (c =? 35)) s = true
  /\ forallb (fun c => negb (c =? 10)) s = true.
Proof.
  unfold clean. intros H.
  apply andb_prop in H. destruct H as [H Hall].
  apply andb_prop in H. destruct H as [H1 H2].
  repeat split; try assumption.
  - clear H1 H2. induction s as [|c s IH]; [reflexivity|]. cbn [forallb] in *.
    apply andb_prop in Hall. destruct Hall as [Hc Hs].
    apply andb_prop in Hc. destruct Hc as [Hc _]. now rewrite Hc, IH.
  - clear H1 H2. induction s as [|c s IH]; [reflexivity|]. cbn [forallb] in *.
    apply andb_prop in Hall. destruct Hall as [Hc Hs].
    apply andb_prop in Hc. destruct Hc as [_ Hc]. now rewrite Hc, IH.
Qed.

Lemma clean_not_empty (s : jsstring) : clean s = true -> falsy s = false.
Proof. intros H. destruct s; [discriminate H | reflexivity]. Qed.

(** A line that holds a clean code and label puts them into the map. *)
Lemma parseTableCSV_line_clean (map : JSMap.t jsstring) (code label : jsstring) :
  clean code = true -> clean label = true ->
  parseTableCSV_line map (code ++ [35] ++ label) = JSMap.set code label map.
Proof.
  intros Hcode Hlabel.
  destruct (clean_parts code Hcode) as (Hc1 & Hc2 & Hc35 & _).
  destruct (clean_parts label Hlabel) as (Hl1 & Hl2 & Hl35 & _).
  pose proof (clean_not_empty code Hcode) as Hcne.
  pose proof (clean_not_empty label Hlabel) as Hlne.
  unfold parseTableCSV_line.
  assert (Hline : trim (code ++ [35] ++ label) = code ++ [35] ++ label).
  { apply trim_text_ends.
    - rewrite first_is_text_app; [assumption | destruct code; [discriminate | discriminate]].
    - rewrite !rev_app_distr, <- app_assoc.
      rewrite first_is_text_app; [assumption|].
      destruct label; [discriminate|].
      intros E. apply (f_equal (@List.length code_unit)) in E.
      rewrite length_rev in E. discriminate. }
  rewrite Hline.
  assert (Hne : falsy (code ++ [35] ++ label) = false)
    by (destruct code; [discriminate | reflexivity]).
  rewrite Hne. unfold split. cbn [app].
  rewrite_units (split_from_piece 35 code label [] Hc35).
  rewrite_units (split_from_plain 35 label [] Hl35). cbn [app].
  rewrite Hcne, Hlne. cbn [negb andb].
  now rewrite (trim_text_ends code Hc1 Hc2), (trim_text_ends label Hl1 Hl2).
Qed.

Lemma table_text_cons (code label : jsstring) (entries : list (jsstring * jsstring)) :
  table_text ((code, label) :: entries)
  = (code ++ 35 :: label) ++ 10 :: table_text entries.
Proof.
  unfold table_text. cbn [List.map List.concat fst snd].
  repeat (rewrite <- app_assoc; cbn [app]). reflexivity.
Qed.

Lemma table_text_lines (entries : list (jsstring * jsstring)) :
  forallb (fun e => clean (fst e) && clean (snd e)) entries = true ->
  split (table_text entries) 10
  = List.map (fun e => fst e ++ [35] ++ snd e) entries ++ [[]].
Proof.
  unfold split. induction entries as [|[code label] entries IH]; intros H;
    [reflexivity|].
  cbn [forallb fst snd] in H. apply andb_prop in H. destruct H as [He Hrest].
  apply andb_prop in He. destruct He as [Hcode Hlabel].
  destruct (clean_parts code Hcode) as (_ & _ & _ & Hc10).
  destruct (clean_parts label Hlabel) as (_ & _ & _ & Hl10).
  assert (Hno : forallb (fun c => negb (c =? 10)) (code ++ 35 :: label) = true)
    by (rewrite forallb_app; apply andb_true_intro; split;
        [exact Hc10 | cbn [forallb]; exact Hl10]).
  rewrite table_text_cons.
  rewrite_units (split_from_piece 10 (code ++ 35 :: label) (table_text entries) [] Hno).
  cbn [List.map app fst snd]. f_equal. now apply IH.
Qed.

Lemma parseTableCSV_of_table_text (toString : list byte -> jsstring) (data : list byte)
    (entries : list (jsstring * jsstring)) :
  toString data = table_text entries ->
  forallb (fun e => clean (fst e) && clean (snd e)) entries = true ->
  parseTableCSV toString data
  = fold_left (fun acc e => JSMap.set (fst e) (snd e) acc) entries [].
Proof.
  intros Htext Hclean. unfold parseTableCSV. cbv zeta.
  rewrite Htext, table_text_lines by assumption.
  rewrite fold_left_app. cbn [fold_left].
  assert (Hlast : forall m, parseTableCSV_line m [] = m) by reflexivity.
  rewrite Hlast. clear Htext. generalize (@nil (jsstring * jsstring)) as m.
  induction entries as [|[code label] entries IH]; intros m; cbn [List.map fold_left];
    [reflexivity|].
  cbn [forallb fst snd] in Hclean. apply andb_prop in Hclean.
  destruct Hclean as [He Hrest]. apply andb_prop in He. destruct He as [Hcode Hlabel].
  cbn [fst snd]. rewrite parseTableCSV_line_clean by assumption. now apply IH.
Qed.

(** X15.  A table written one entry per line as code, [#], label, with
    clean codes and labels, is read back: every code gives the label of
    its last line, and when no code is repeated the map holds exactly the
    entries in their order. *)
Theorem parseTableCSV_reads_table (toString : list byte -> jsstring) (data : list byte)
    (entries : list (jsstring * jsstring))
    (Htext : toString data = table_text entries)
    (Hclean : forallb (fun e => clean (fst e) && clean (snd e)) entries = true) :
  (forall code, JSMap.get code (parseTableCSV toString data) = last_with_key code entries)
  /\ (NoDup (List.map fst entries) -> parseTableCSV toString data = entries).
Proof.
  rewrite (parseTableCSV_of_table_text toString data entries Htext Hclean).
  split.
  - intros code. unfold last_with_key.
    rewrite (get_after_sets fst snd entries [] code).
    destruct (List.find _ (List.rev entries)); reflexivity.
  - intros Hnd. now rewrite sets_of_fresh_keys.
Qed.

Lemma parseTableCSV_reads_table_witness :
  parseTableCSV (fun bytes => bytes) (str "001#Payment Cash" ++ [10] ++ str "002#Payment Card" ++ [10])
  = [(str "001", str "Payment Cash"); (str "002", str "Payment Card")].
Proof.
  apply (parseTableCSV_reads_table (fun bytes => bytes) _
           [(str "001", str "Payment Cash"); (str "002", str "Payment Card")]).
  - reflexivity.
  - reflexivity.
  - repeat constructor; cbn; intuition discriminate.
Defined.

(** X16.  Whatever the text, the codes and labels that [parseTableCSV]
    stores have no white space at either end, and a text without any [#]
    gives the empty map. *)
Theorem parseTableCSV_entries_trimmed (toString : list byte -> jsstring) (data : list byte) :
  (forall code label, In (code, label) (parseTableCSV toString data) ->
     trim code = code /\ trim label = label)
  /\ (forallb (fun c => negb (c =? 35)) (toString data) = true ->
      parseTableCSV toString data = []).
Proof.
  unfold parseTableCSV. cbv zeta. split.
  - set (P := fun m : JSMap.t jsstring =>
                forall code label, In (code, label) m ->
                                   trim code = code /\ trim label = label).
    assert (Hstep : forall m line, P m -> P (parseTableCSV_line m line)).
    { intros m line Hm. unfold parseTableCSV_line.
      destruct (falsy (trim line)); [exact Hm|].
      destruct (split line 35) as [|code [|value rest]]; try exact Hm.
      destruct (negb (falsy code) && negb (falsy value)); [|exact Hm].
      intros k v Hin. apply in_set in Hin. destruct Hin as [Hin|[-> ->]].
      - now apply Hm.
      - split; apply trim_idempotent. }
    assert (Hfold : forall lines m, P m -> P (fold_left parseTableCSV_line lines m)).
    { induction lines as [|line lines IH]; intros m Hm; cbn [fold_left];
        [exact Hm | apply IH, Hstep, Hm]. }
    apply Hfold. intros code label [].
  - intros Hno.
    pose proof (split_from_pieces 10 (fun c => negb (c =? 35)) (toString data) []
                  Hno eq_refl) as Hpieces.
    fold (split (toString data) 10) in Hpieces.
    generalize dependent (split (toString data) 10).
    intros lines Hpieces. induction Hpieces as [|line lines Hline _ IH]; cbn [fold_left];
      [reflexivity|].
    assert (E : parseTableCSV_line [] line = []).
    { unfold parseTableCSV_line. destruct (falsy (trim line)); [reflexivity|].
      unfold split. rewrite split_from_plain by assumption. reflexivity. }
    rewrite E. exact IH.
Qed.

Lemma parseTableCSV_entries_trimmed_witness :
  parseTableCSV (fun bytes => bytes) (str "invalid line" ++ [10] ++ str "no separator")
  = [].
Proof.
  apply (parseTableCSV_entries_trimmed (fun bytes => bytes)). reflexivity.
Defined.

Lemma Forall_keys_set {V : Type} (Q : jsstring -> Prop) (key : jsstring) (v : V)
    (m : JSMap.t V) :
  Q key -> Forall (fun e => Q (fst e)) m -> Forall (fun e => Q (fst e)) (JSMap.set key v m).
Proof.
  intros Hkey. induction 1 as [|[k0 v0] m Hk0 Hm IH]; cbn [JSMap.set].
  - constructor; [exact Hkey | constructor].
  - destruct (string_eqb k0 key); constructor; assumption.
Qed.

(** What a round of the loop does to the entry of a name. *)
Lemma getAllTables_round_get (getTable : Z -> completion TableResponse.t)
    (tables : JSMap.t (list byte)) (i : Z) (tableName key : jsstring) :
  nth_error tableNames (Z.to_nat i) = Some tableName -> falsy tableName = false ->
  JSMap.get key (getAllTables_round getTable tables i)
  = match getTable i with
    | Normal table =>
        match TableResponse.file table with
        | Some file => if string_eqb tableName key then Some file
                       else JSMap.get key tables
        | None => JSMap.get key tables
        end
    | Throw _ => JSMap.get key tables
    end.
Proof.
  intros Hname Hne. unfold getAllTables_round. rewrite Hname, Hne.
  destruct (getTable i) as [table|]; [|reflexivity].
  destruct (TableResponse.file table); [apply get_set | reflexivity].
Qed.

Lemma getAllTables_round_keys (getTable : Z -> completion TableResponse.t)
    (tables : JSMap.t (list byte)) (i : Z) :
  Forall (fun e => In (fst e) tableNames) tables ->
  Forall (fun e => In (fst e) tableNames) (getAllTables_round getTable tables i).
Proof.
  intros H. unfold getAllTables_round.
  destruct (getTable i) as [table|]; [|exact H].
  destruct (TableResponse.file table); [|exact H].
  destruct (nth_error tableNames (Z.to_nat i)) as [tableName|] eqn:E; [|exact H].
  destruct (falsy tableName); [exact H|].
  apply (Forall_keys_set (fun k => In k tableNames)); [|exact H].
  eapply nth_error_In, E.
Qed.

(** X17.  [getAllTables] keeps going when a download fails: each of the
    four names is in the result exactly when its own download returned a
    file, whatever became of the others, and the result has no other
    keys. *)
Theorem getAllTables_isolates_failures (getTable : Z -> completion TableResponse.t) :
  (forall i name,
     In (i, name) (List.combine [0; 1; 2; 3] tableNames) ->
     JSMap.get name (getAllTables getTable)
     = match getTable i with
       | Normal table => TableResponse.file table
       | Throw _ => None
       end)
  /\ Forall (fun entry => In (fst entry) tableNames) (getAllTables getTable).
Proof.
  unfold getAllTables. cbn [fold_left]. split.
  - intros i name Hin. unfold tableNames in Hin. cbn [List.combine In] in Hin.
    rewrite (getAllTables_round_get getTable _ 3 (str "document_types") name eq_refl eq_refl).
    rewrite (getAllTables_round_get getTable _ 2 (str "vehicle_types") name eq_refl eq_refl).
    rewrite (getAllTables_round_get getTable _ 1 (str "locations") name eq_refl eq_refl).
    rewrite (getAllTables_round_get getTable _ 0 (str "payment_types") name eq_refl eq_refl).
    cbn [JSMap.get].
    repeat (destruct Hin as [Hin|Hin];
            [injection Hin as <- <-;
             repeat match goal with
                    | |- context [string_eqb ?a ?b] =>
                        let v := eval vm_compute in (string_eqb a b) in
                        change (string_eqb a b) with v
                    end;
             cbv iota;
             repeat match goal with
                    | |- context [match getTable ?k with _ => _ end] =>
                        destruct (getTable k) as [[? ? [?|]]|?];
                        cbn [TableResponse.file]
                    end;
             reflexivity|]).
    contradiction.
  - repeat apply getAllTables_round_keys. constructor.
Qed.

Lemma getAllTables_isolates_failures_witness :
  JSMap.get (str "locations") (getAllTables locations_unavailable) = None
  /\ JSMap.get (str "vehicle_types") (getAllTables locations_unavailable)
     = Some [49; 35; 65].
Proof.
  destruct (getAllTables_isolates_failures locations_unavailable) as (Hget & _).
  split.
  - apply (Hget 1 (str "locations")). right. left. reflexivity.
  - apply (Hget 2 (str "vehicle_types")). right. right. left. reflexivity.
Defined.

(** ** Looking a code up *)

Lemma String_of_code_injective (a b : Z) :
  0 <= a -> 0 <= b -> string_eqb (String_ (Int a)) (String_ (Int b)) = (a =? b).
Proof.
  intros Ha Hb. destruct (Z.eqb_spec a b) as [->|Hne].
  - apply string_eqb_refl.
  - apply string_eqb_neq. intros E. apply Hne.
    apply (f_equal decimal_value) in E. cbn [String_] in E.
    destruct (Z.ltb_spec a 0), (Z.ltb_spec b 0); try lia.
    now rewrite !digits_value in E by assumption.
Qed.

Lemma find_map {A B : Type} (f : A -> B) (p : B -> bool) (l : list A) :
  List.find p (List.map f l)
  = match List.find (fun a => p (f a)) l with
    | Some a => Some (f a)
    | None => None
    end.
Proof.
  induction l as [|a l IH]; cbn [List.map List.find]; [reflexivity|].
  destruct (p (f a)); [reflexivity | exact IH].
Qed.

Lemma find_ext_in {A : Type} (p q : A -> bool) (l : list A) :
  (forall a, In a l -> p a = q a) -> List.find p l = List.find q l.
Proof.
  induction l as [|a l IH]; intros H; cbn [List.find]; [reflexivity|].
  rewrite (H a) by now left. destruct (q a); [reflexivity|].
  apply IH. intros x Hx. apply H. now right.
Qed.

Lemma find_unique_code (l : list (jsstring * Z)) (label : jsstring) (z : Z) :
  NoDup (List.map snd l) -> In (label, z) l ->
  List.find (fun e => snd e =? z) l = Some (label, z).
Proof.
  induction l as [|[label' z'] l IH]; intros Hnd Hin; [contradiction|].
  cbn [List.map snd] in Hnd. inversion Hnd as [|? ? Hnotin Hnd']; subst.
  cbn [List.find snd]. destruct Hin as [E|Hin].
  - injection E as -> ->. now rewrite Z.eqb_refl.
  - destruct (Z.eqb_spec z' z) as [->|_]; [|now apply IH].
    exfalso. apply Hnotin. change z with (snd (label, z)). now apply in_map.
Qed.

Lemma find_no_code (l : list (jsstring * Z)) (z : Z) :
  ~ In z (List.map snd l) -> List.find (fun e => snd e =? z) l = None.
Proof.
  induction l as [|[label' z'] l IH]; intros Hnotin; cbn [List.find snd]; [reflexivity|].
  cbn [List.map snd In] in Hnotin.
  destruct (Z.eqb_spec z' z); [tauto | apply IH; tauto].
Qed.

(** X18.  [lookupLocation] gives the label of the last entry of the table
    that has the code; when no code is repeated every entry is found by
    its code, and a code that is not in the table gives nothing. *)
Theorem lookupLocation_finds_entry (entries : list (jsstring * Z)) (z : Z)
    (Hcodes : Forall (fun e => 0 <= snd e) entries) (Hz : 0 <= z) :
  let LOCATIONS := List.map (fun e => (fst e, Int (snd e))) entries in
  lookupLocation LOCATIONS (Int z)
  = option_map fst (List.find (fun e => snd e =? z) (List.rev entries))
  /\ (NoDup (List.map snd entries) ->
      forall label, In (label, z) entries -> lookupLocation LOCATIONS (Int z) = Some label)
  /\ (~ In z (List.map snd entries) -> lookupLocation LOCATIONS (Int z) = None).
Proof.
  cbv zeta.
  assert (Hlast : lookupLocation (List.map (fun e => (fst e, Int (snd e))) entries) (Int z)
                  = option_map fst (List.find (fun e => snd e =? z) (List.rev entries))).
  { unfold lookupLocation, createCodeToNameIndex.
    rewrite (get_after_sets (fun e : jsstring * number => String_ (snd e)) fst).
    rewrite <- map_rev, find_map. cbn [snd fst JSMap.get].
    rewrite (find_ext_in _ (fun e : jsstring * Z => snd e =? z)).
    - destruct (List.find _ (List.rev entries)); reflexivity.
    - intros e He. apply String_of_code_injective; [|assumption].
      rewrite Forall_forall in Hcodes. apply Hcodes. now apply in_rev. }
  split; [exact Hlast|]. split.
  - intros Hnd label Hin. rewrite Hlast.
    rewrite (find_unique_code (List.rev entries) label z); [reflexivity | |].
    + rewrite map_rev. now apply NoDup_rev.
    + now apply in_rev in Hin.
  - intros Hnotin. rewrite Hlast, find_no_code; [reflexivity|].
    rewrite map_rev. intros Hin. apply Hnotin. now apply in_rev.
Qed.

Lemma lookupLocation_finds_entry_witness :
  lookupLocation [(str "ROMA", Int 412058091); (str "ITALIA", Int 100000100)]
                 (Int 100000100)
  = Some (str "ITALIA").
Proof.
  pose proof (lookupLocation_finds_entry
                [(str "ROMA", 412058091); (str "ITALIA", 100000100)] 100000100) as H.
  cbv zeta in H. destruct H as (_ & Hfound & _).
  - repeat constructor; cbn; lia.
  - lia.
  - apply Hfound.
    + repeat constructor; cbn; intuition discriminate.
    + right. left. reflexivity.
Defined.

(** ** The table generator: rows and headers *)

Lemma parseCsvRow_loop_inside (field : jsstring) :
  forall rest current result,
    parseCsvRow_loop (doubled_quotes field ++ rest) current true result
    = parseCsvRow_loop rest (current ++ field) true result.
Proof.
  induction field as [|c field IH]; intros rest current result;
    cbn [doubled_quotes app].
  - now rewrite app_nil_r.
  - destruct (Z.eqb_spec c 34) as [->|Hc].
    + cbn [app parseCsvRow_loop Z.eqb Pos.eqb andb]. rewrite IH.
      now rewrite <- app_assoc.
    + cbn [app parseCsvRow_loop].
      destruct (Z.eqb_spec c 34); [contradiction|].
      rewrite andb_false_r, IH. now rewrite <- app_assoc.
Qed.

Lemma parseCsvRow_loop_quoted (field rest current : jsstring) (result : list jsstring) :
  match rest with c :: _ => (c =? 34) = false | [] => True end ->
  parseCsvRow_loop (quoted field ++ rest) current false result
  = parseCsvRow_loop rest (current ++ field) false result.
Proof.
  intros Hrest. unfold quoted. cbn [app].
  assert (Hopen : forall row, parseCsvRow_loop (34 :: row) current false result
                              = parseCsvRow_loop row current true result).
  { intros [|d row]; reflexivity. }
  rewrite Hopen, <- app_assoc, parseCsvRow_loop_inside. cbn [app].
  destruct rest as [|d rest]; [reflexivity|].
  cbn [parseCsvRow_loop Z.eqb Pos.eqb andb]. now rewrite Hrest.
Qed.

Lemma parseCsvRow_loop_fields (fields : list jsstring) :
  forall field result,
    parseCsvRow_loop (joined (List.map quoted (field :: fields))) [] false result
    = result ++ List.map trim (field :: fields).
Proof.
  induction fields as [|next fields IH]; intros field result.
  - cbn [List.map joined]. rewrite <- (app_nil_r (quoted field)).
    now rewrite parseCsvRow_loop_quoted.
  - change (joined (List.map quoted (field :: next :: fields)))
      with (quoted field ++ 44 :: joined (List.map quoted (next :: fields))).
    rewrite parseCsvRow_loop_quoted by reflexivity.
    cbn [parseCsvRow_loop Z.eqb Pos.eqb andb negb app].
    rewrite IH. cbn [List.map]. now rewrite <- app_assoc.
Qed.

Lemma parseCsvRow_loop_plain (row : jsstring) :
  forall current result,
    forallb (fun c => negb (c =? 34)) row = true ->
    parseCsvRow_loop row current false result
    = result ++ List.map trim (split_from 44 row current).
Proof.
  induction row as [|c row IH]; intros current result H; cbn [parseCsvRow_loop split_from].
  - reflexivity.
  - cbn [forallb] in H. apply andb_prop in H. destruct H as [Hc Hrow].
    apply negb_true_iff in Hc. rewrite Hc. cbn [negb]. rewrite andb_true_r.
    destruct (c =? 44).
    + rewrite IH by assumption. cbn [List.map]. now rewrite <- app_assoc.
    + now apply IH.
Qed.

Lemma parseCsvRow_loop_not_empty (row : jsstring) :
  forall current inQuotes result, parseCsvRow_loop row current inQuotes result <> [].
Proof.
  assert (Hlast : forall (l : list jsstring) x, l ++ [x] <> [])
    by (intros [|? ?] x; discriminate).
  remember (List.length row) as n eqn:Hn.
  revert row Hn. induction n as [n IH] using lt_wf_ind. intros row Hn current q result.
  destruct row as [|c row]; cbn [parseCsvRow_loop]; [apply Hlast|].
  cbn [List.length] in Hn.
  destruct (c =? 34).
  - destruct row as [|d row].
    + cbn [parseCsvRow_loop]. apply Hlast.
    + cbn [List.length] in Hn.
      destruct (q && (d =? 34)); [eapply (IH (List.length row)) | eapply (IH (S (List.length row)))];
        (lia || reflexivity).
  - destruct ((c =? 44) && negb q); eapply (IH (List.length row)); (lia || reflexivity).
Qed.

(** X19.  [parseCsvRow] reads back a row of quoted fields: whatever the
    fields hold, commas and quotes included, the row of the fields in
    double quotes with their quotes doubled, joined by commas, gives the
    fields again, each without the white space at its ends. *)
Theorem parseCsvRow_reads_quoted_fields (field : jsstring) (fields : list jsstring) :
  parseCsvRow (joined (List.map quoted (field :: fields)))
  = List.map trim (field :: fields).
Proof. unfold parseCsvRow. rewrite parseCsvRow_loop_fields. reflexivity. Qed.

(** X20.  On a row without any double quote [parseCsvRow] is a split at the
    commas followed by a trim of every piece; and no row at all gives an
    empty list of fields. *)
Theorem parseCsvRow_plain_row (row : jsstring) :
  (forallb (fun c => negb (c =? 34)) row = true ->
   parseCsvRow row = List.map trim (split row 44))
  /\ parseCsvRow row <> []
  /\ parseCsvRow [] = [[]].
Proof.
  split; [|split].
  - intros H. unfold parseCsvRow, split. now rewrite parseCsvRow_loop_plain.
  - apply parseCsvRow_loop_not_empty.
  - reflexivity.
Qed.

Lemma parseCsvRow_plain_row_witness :
  parseCsvRow (str "codice, descrizione ,datafineval")
  = [str "codice"; str "descrizione"; str "datafineval"].
Proof.
  destruct (parseCsvRow_plain_row (str "codice, descrizione ,datafineval")) as (H & _).
  rewrite H by reflexivity. reflexivity.
Defined.

(** X21.  Removing the byte order mark before trimming changes nothing,
    because [trim] takes the mark for white space: [normalizeLine] is
    [trim], and [normalizeHeader] is [trim] followed by [toLowerCase]. *)
Theorem normalizeLine_is_trim (toLowerCase : jsstring -> jsstring) (line : jsstring) :
  normalizeLine line = trim line
  /\ normalizeHeader toLowerCase line = toLowerCase (trim line)
  /\ trim (65279 :: line) = trim line.
Proof.
  assert (H : trim (strip_bom line) = trim line).
  { destruct line as [|c line]; [reflexivity|]. cbn [strip_bom].
    destruct (Z.eqb_spec c 65279) as [->|_]; [|reflexivity].
    symmetry. now apply trim_skips_whitespace. }
  unfold normalizeLine, normalizeHeader. rewrite H.
  split; [reflexivity|]. split; [reflexivity|].
  now apply trim_skips_whitespace.
Qed.

Lemma existsb_string_eqb (h : jsstring) (l : list jsstring) :
  existsb (string_eqb h) l = true <-> In h l.
Proof.
  rewrite existsb_exists. split.
  - intros (x & Hx & E). apply string_eqb_eq in E. now subst.
  - intros H. exists h. split; [assumption | apply string_eqb_refl].
Qed.

Lemma findIndex_from_spec {A : Type} (p : A -> bool) (l : list A) :
  forall i,
    (findIndex_from p l i = -1 /\ 0 <= i -> forall a, In a l -> p a = false)
    /\ ((forall a, In a l -> p a = false) -> findIndex_from p l i = -1)
    /\ (0 <= i -> findIndex_from p l i <> -1 ->
        i <= findIndex_from p l i < i + len_of l
        /\ exists a, nth_error l (Z.to_nat (findIndex_from p l i - i)) = Some a
                     /\ p a = true
                     /\ forall j b, (j < Z.to_nat (findIndex_from p l i - i))%nat ->
                                    nth_error l j = Some b -> p b = false).
Proof.
  induction l as [|x l IH]; intros i; cbn [findIndex_from].
  - split; [intros _ a []|]. split; [reflexivity|]. intros _ H. congruence.
  - destruct (IH (i + 1)) as (IH1 & IH2 & IH3). destruct (p x) eqn:Hx.
    + split; [intros [E Hi]; lia|]. split.
      * intros H. specialize (H x (or_introl eq_refl)). congruence.
      * intros Hi _. unfold len_of. cbn [List.length]. split; [lia|].
        exists x. rewrite Z.sub_diag. cbn. split; [reflexivity|].
        split; [assumption|]. intros j b Hj. lia.
    + split; [|split].
      * intros [E Hi] a [<-|Ha]; [assumption|]. apply IH1; [split; [assumption | lia] | assumption].
      * intros H. apply IH2. intros a Ha. apply H. now right.
      * intros Hi Hne. destruct (IH3 ltac:(lia) Hne) as (Hrange & a & Hnth & Hpa & Hbefore).
        unfold len_of in *. cbn [List.length]. split; [lia|].
        exists a.
        replace (Z.to_nat (findIndex_from p l (i + 1) - i))
          with (S (Z.to_nat (findIndex_from p l (i + 1) - (i + 1)))) by lia.
        cbn [nth_error]. split; [assumption|]. split; [assumption|].
        intros [|j] b Hj Hb; cbn [nth_error] in Hb.
        -- injection Hb as <-. assumption.
        -- apply (Hbefore j b); [lia | assumption].
Qed.

(** X22.  [findHeaderIndex] gives the position of the first header of the
    file that is one of the accepted names, and -1 when there is none; the
    order in which the accepted names are listed plays no part. *)
Theorem findHeaderIndex_first_accepted (toLowerCase : jsstring -> jsstring)
    (headers acceptedHeaders : list jsstring) :
  let accepted := List.map toLowerCase acceptedHeaders in
  let i := findHeaderIndex toLowerCase headers acceptedHeaders in
  (i = -1 <-> forall h, In h headers -> ~ In h accepted)
  /\ (i <> -1 ->
      0 <= i < len_of headers
      /\ exists h, nth_error headers (Z.to_nat i) = Some h /\ In h accepted
                   /\ forall j h', (j < Z.to_nat i)%nat -> nth_error headers j = Some h' ->
                                   ~ In h' accepted)
  /\ (forall others,
        (forall h, In h accepted <-> In h (List.map toLowerCase others)) ->
        findHeaderIndex toLowerCase headers others = i).
Proof.
  cbv zeta. unfold findHeaderIndex.
  set (accepted := List.map toLowerCase acceptedHeaders).
  set (p := fun header => existsb (string_eqb header) accepted).
  destruct (findIndex_from_spec p headers 0) as (H1 & H2 & H3).
  assert (Hp : forall h, p h = false <-> ~ In h accepted).
  { intros h. unfold p. rewrite <- existsb_string_eqb.
    destruct (existsb (string_eqb h) accepted); split; congruence. }
  split; [|split].
  - split.
    + intros E h Hh. apply Hp, H1; [split; [exact E | lia] | exact Hh].
    + intros H. apply H2. intros h Hh. now apply Hp, H.
  - intros Hne. destruct (H3 ltac:(lia) Hne) as (Hrange & h & Hnth & Hph & Hbefore).
    rewrite Z.sub_0_r in *. split; [lia|]. exists h. split; [exact Hnth|]. split.
    + now apply existsb_string_eqb.
    + intros j h' Hj Hh'. apply Hp. now apply (Hbefore j h').
  - intros others Hsame.
    assert (E : forall h, existsb (string_eqb h) (List.map toLowerCase others) = p h).
    { intros h. unfold p.
      destruct (existsb (string_eqb h) accepted) eqn:Ea.
      - apply existsb_string_eqb, Hsame, existsb_string_eqb. exact Ea.
      - destruct (existsb (string_eqb h) (List.map toLowerCase others)) eqn:Eo;
          [|reflexivity].
        apply existsb_string_eqb, Hsame, existsb_string_eqb in Eo. congruence. }
    clear H1 H2 H3. generalize 0.
    induction headers as [|h headers IH]; intros k; cbn [findIndex_from]; [reflexivity|].
    rewrite E. destruct (p h); [reflexivity | apply IH].
Qed.

Lemma findHeaderIndex_first_accepted_witness :
  findHeaderIndex (fun s => s) [str "id"; str "codice"; str "descrizione"]
                  [str "codice"; str "id"]
  = findHeaderIndex (fun s => s) [str "id"; str "codice"; str "descrizione"]
                    [str "id"; str "codice"].
Proof.
  pose proof (findHeaderIndex_first_accepted (fun s => s)
                [str "id"; str "codice"; str "descrizione"] [str "id"; str "codice"]) as H.
  cbv zeta in H. destruct H as (_ & _ & Horder).
  apply Horder. intros h. rewrite !map_id. cbn [In]. tauto.
Defined.

(** ** Reading text fields back *)

Lemma trimStart_app (s t : jsstring) :
  trimStart s <> [] -> trimStart (s ++ t) = trimStart s ++ t.
Proof.
  induction s as [|c s IH]; cbn [trimStart app]; [congruence|].
  destruct (is_whitespace c); [exact IH | reflexivity].
Qed.

Lemma trimStart_all_space (s t : jsstring) :
  trimStart s = [] -> trimStart (s ++ t) = trimStart t.
Proof.
  induction s as [|c s IH]; cbn [trimStart app]; [reflexivity|].
  destruct (is_whitespace c); [exact IH | discriminate].
Qed.

Lemma trim_trailing_space (s : jsstring) (c : code_unit) :
  is_whitespace c = true -> trim (s ++ [c]) = trim s.
Proof.
  intros Hc. unfold trim.
  destruct (trimStart s) as [|d u] eqn:E.
  - rewrite (trimStart_all_space s [c] E). cbn [trimStart]. now rewrite Hc.
  - rewrite trimStart_app by (rewrite E; discriminate).
    rewrite E, rev_app_distr. cbn [List.rev app trimStart]. now rewrite Hc.
Qed.

Lemma trim_trailing_spaces (s : jsstring) (k : nat) : trim (s ++ List.repeat 32 k) = trim s.
Proof.
  induction k as [|k IH]; [now rewrite app_nil_r|].
  cbn [List.repeat].
  rewrite_units (repeat_cons k 32).
  rewrite_units (app_assoc s (List.repeat 32 k) [32]).
  rewrite_units (trim_trailing_space (s ++ List.repeat 32 k) 32 eq_refl). exact IH.
Qed.

(** X23.  A text that fits its field and has no white space at its ends is
    read back from the field by [trim]; so the surname and the name of a
    driver are read from columns 0-50 and 50-80 of the block, whatever the
    rest of the driver. *)
Theorem padString_trim_reads_back (value : jsstring) (width : Z) (driver : Driver.t) :
  (len value <= width -> trim value = value ->
   trim (padString value width None) = value)
  /\ (len (Driver.surname driver) <= 50 ->
      trim (Driver.surname driver) = Driver.surname driver ->
      trim (substring (formatDriver driver) 0 50) = Driver.surname driver)
  /\ (len (Driver.name driver) <= 30 ->
      trim (Driver.name driver) = Driver.name driver ->
      trim (substring (formatDriver driver) 50 80) = Driver.name driver).
Proof.
  assert (Hfield : forall v w, len v <= w -> trim v = v -> trim (padString v w None) = v).
  { intros v w Hfit Hclean.
    change (@None jsstring) with (@None (list code_unit)).
    unfold padString.
    destruct (Z.ltb_spec w (len v)); [lia|].
    unfold padEnd. destruct (Z.leb_spec w (len v)); [exact Hclean|].
    change (str " ") with ([32] : jsstring). cbn [falsy].
    rewrite truncatedStringFiller_single, trim_trailing_spaces. exact Hclean. }
  split; [apply Hfield|].
  pose proof (field_of_concat (driver_fields driver)) as Hat.
  rewrite <- formatDriver_fields in Hat.
  split; intros Hfit Hclean.
  - pose proof (Hat 0%nat _ eq_refl) as H0.
    unfold column in H0. cbn [driver_fields List.map firstn fold_right] in H0.
    rewrite len_padString_default in H0 by lia.
    change (50 + 0) with 50 in H0. rewrite H0. now apply Hfield.
  - pose proof (Hat 1%nat _ eq_refl) as H1.
    unfold column in H1. cbn [driver_fields List.map firstn fold_right] in H1.
    rewrite !len_padString_default in H1 by lia.
    change (50 + 0) with 50 in H1. change (50 + (30 + 0)) with 80 in H1.
    rewrite H1. now apply Hfield.
Qed.

Lemma padString_trim_reads_back_witness :
  trim (substring (formatDriver createTestDriver) 0 50) = str "Rossi"
  /\ trim (substring (formatDriver createTestDriver) 50 80) = str "Mario".
Proof.
  destruct (padString_trim_reads_back [] 0 createTestDriver) as (_ & Hsurname & Hname).
  split.
  - apply Hsurname; [vm_compute; discriminate | reflexivity].
  - apply Hname; [vm_compute; discriminate | reflexivity].
Defined.

(** X24.  The id of a contract that passes validation is written in full
    at the start of its record, followed by spaces up to column 50, so it
    is read back from there; an id that validation reports as too long is
    cut to its first 50 characters. *)
Theorem validated_id_in_record (c : RentalContract.t) :
  (isValidContractData c = [] ->
   1 <= len (RentalContract.id c) <= 50
   /\ substring (formatContract c) 0 50
      = RentalContract.id c
        ++ List.repeat 32 (Z.to_nat (50 - len (RentalContract.id c))))
  /\ (50 < len (RentalContract.id c) ->
      substring (formatContract c) 0 50 = firstn 50 (RentalContract.id c)
      /\ In (str "Contract ID must be between 1 and 50 characters")
            (isValidContractData c)).
Proof.
  pose proof (field_of_concat (contract_fields c) 0%nat _ eq_refl) as H0.
  rewrite <- formatContract_fields in H0.
  unfold column in H0. cbn [contract_fields List.map firstn fold_right] in H0.
  rewrite len_padString_default in H0 by lia. change (50 + 0) with 50 in H0.
  split.
  - intros Hvalid.
    assert (Hid : 1 <= len (RentalContract.id c) <= 50).
    { unfold isValidContractData in Hvalid. cbv zeta in Hvalid.
      destruct (falsy (RentalContract.id c) || (50 <? len (RentalContract.id c))) eqn:E.
      - exfalso. cbn [app] in Hvalid.
        repeat match type of Hvalid with
               | context [if ?b then _ else _] => destruct b
               end; cbn [app] in Hvalid; discriminate.
      - apply orb_false_iff in E. destruct E as [Hne Hlen].
        apply Z.ltb_ge in Hlen. rewrite falsy_len in Hne.
        apply negb_false_iff, Z.leb_le in Hne. lia. }
    split; [exact Hid|]. rewrite H0.
    change (@None jsstring) with (@None (list code_unit)).
    unfold padString. destruct (Z.ltb_spec 50 (len (RentalContract.id c))); [lia|].
    unfold padEnd. destruct (Z.leb_spec 50 (len (RentalContract.id c))).
    + replace (50 - len (RentalContract.id c)) with 0 by lia. now rewrite app_nil_r.
    + change (str " ") with ([32] : jsstring). cbn [falsy].
      now rewrite truncatedStringFiller_single.
  - intros Hlong. split.
    + rewrite H0. now rewrite padString_truncates by assumption.
    + unfold isValidContractData. cbv zeta.
      destruct (Z.ltb_spec 50 (len (RentalContract.id c))); [|lia].
      rewrite orb_true_r. cbn [app].
      repeat match goal with
             | |- context [if ?b then _ else _] => destruct b
             end; cbn [app]; left; reflexivity.
Qed.

Lemma validated_id_in_record_witness :
  isValidContractData createTestContract = []
  /\ substring (formatContract createTestContract) 0 50
     = str "CONTRACT-001" ++ List.repeat 32 38.
Proof.
  split; [reflexivity|].
  destruct (validated_id_in_record createTestContract) as (Hvalid & _).
  destruct (Hvalid eq_refl) as (_ & Hid). exact Hid.
Defined.
